(** * Hybrid logical clock: lib/Basics/HybridLogicalClock.h

    A shallow embedding of [arangodb::basics::HybridLogicalClock] and the
    properties of its time stamps and of their base-64 text form.

    - [uint64_t] values are integers of [Z] in [0, 2^64); every operation
      that can leave that range is reduced with [wrap64].
    - The atomic [lastTimeStamp] is threaded explicitly.  One pass of a
      [do { ... } while (!compare_exchange_weak(...))] loop is driven by an
      [attempt]: the reading of the physical clock, what other threads
      stored between the load and the exchange, and whether the weak
      exchange failed spuriously.  Stores are seen in one global order;
      the memory-order arguments of the source are not represented.
    - The physical clock is the nanosecond count, a signed 64-bit
      integer, that [getPhysicalTime] turns into milliseconds.
    - [std::string] is [string]; the 11-character buffer of
      [encodeTimeStamp] is a [list ascii] updated by index.
    - [encodeTable] and [decodeTable] are declared in the header and
      defined elsewhere: they are parameters of the codec. *)

From Stdlib Require Import ZArith Lia List Bool Ascii String.
From stdpp Require Import base list.
Import ListNotations.

Local Open Scope Z_scope.

(** ** 64-bit unsigned arithmetic *)

Definition wrap64 (z : Z) : Z := z mod 2 ^ 64.

Definition uint64 (z : Z) : Prop := 0 <= z < 2 ^ 64.

(** ** The packed time stamp *)

Module HybridLogicalClock.

(** [t >> 20] *)
Definition extractTime (t : Z) : Z := Z.shiftr t 20.

(** [t & 0xfffffUL] *)
Definition extractCount (t : Z) : Z := Z.land t 0xfffff.

(** [(time << 20) | count] *)
Definition assembleTimeStamp (time count : Z) : Z :=
  Z.lor (wrap64 (Z.shiftl time 20)) count.

(** ** The compare-and-swap loop *)

Record attempt : Type := Attempt {
  physical : Z;              (* result of getPhysicalTime() *)
  interference : option Z;   (* a store by another thread after the load *)
  spurious : bool            (* the weak exchange fails although values agree *)
}.

(** An attempt nobody disturbs. *)
Definition quiet (ms : Z) : attempt :=
  {| physical := ms; interference := None; spurious := false |}.

(** What [lastTimeStamp] holds when the exchange is tried. *)
Definition observed (a : attempt) (lastTimeStamp : Z) : Z :=
  match interference a with
  | Some v => v
  | None => lastTimeStamp
  end.

(** [lastTimeStamp.compare_exchange_weak(expected, desired, ...)]:
    the flag and the new content of [lastTimeStamp]. *)
Definition compare_exchange_weak
    (a : attempt) (lastTimeStamp expected desired : Z) : bool * Z :=
  let current := observed a lastTimeStamp in
  if (current =? expected) && negb (spurious a)
  then (true, desired)
  else (false, current).

(** [do { newTimeStamp = body(physical, oldTimeStamp); } while (!CAS)].
    One element of [env] is consumed per pass; [None] when [env] ends
    before an exchange succeeds.  The result is the returned
    [newTimeStamp] and the final [lastTimeStamp]. *)
Fixpoint cas_loop (body : Z -> Z -> Z) (env : list attempt)
    (lastTimeStamp : Z) : option (Z * Z) :=
  match env with
  | [] => None
  | a :: env' =>
      let oldTimeStamp := lastTimeStamp in
      let newTimeStamp := body (physical a) oldTimeStamp in
      match compare_exchange_weak a lastTimeStamp oldTimeStamp newTimeStamp with
      | (true, m) => Some (newTimeStamp, m)
      | (false, m) => cas_loop body env' m
      end
  end.

(** Loop body of [getTimeStamp()]. *)
Definition tickBody (physical oldTimeStamp : Z) : Z :=
  let oldTime := extractTime oldTimeStamp in
  if physical <=? oldTime
  then assembleTimeStamp oldTime (wrap64 (extractCount oldTimeStamp + 1))
  else assembleTimeStamp physical 0.

(** [uint64_t getTimeStamp()] *)
Definition getTimeStamp (env : list attempt) (lastTimeStamp : Z)
  : option (Z * Z) :=
  cas_loop tickBody env lastTimeStamp.

(** Loop body of [getTimeStamp(uint64_t receivedTimeStamp)].  The counts
    are taken, as in the source, from [oldTime] and [recTime]. *)
Definition mergeBody (receivedTimeStamp physical oldTimeStamp : Z) : Z :=
  let oldTime := extractTime oldTimeStamp in
  let recTime := extractTime receivedTimeStamp in
  let newTime := Z.max (Z.max oldTime physical) recTime in
  let newCount :=
    if newTime =? oldTime then
      if newTime =? recTime then
        wrap64 (Z.max (extractCount oldTime) (extractCount recTime) + 1)
      else
        wrap64 (extractCount oldTime + 1)
    else
      if newTime =? recTime then
        wrap64 (extractCount recTime + 1)
      else
        0 in
  assembleTimeStamp newTime newCount.

(** [uint64_t getTimeStamp(uint64_t receivedTimeStamp)] *)
Definition getTimeStampReceived (receivedTimeStamp : Z)
    (env : list attempt) (lastTimeStamp : Z) : option (Z * Z) :=
  cas_loop (mergeBody receivedTimeStamp) env lastTimeStamp.

(** A sequence of calls on one clock, each with the attempts it meets. *)
Inductive call : Type :=
| Tick (env : list attempt)
| Update (receivedTimeStamp : Z) (env : list attempt).

Definition perform (c : call) (lastTimeStamp : Z) : option (Z * Z) :=
  match c with
  | Tick env => getTimeStamp env lastTimeStamp
  | Update received env => getTimeStampReceived received env lastTimeStamp
  end.

(** The values returned by the calls, in order, and the final state. *)
Fixpoint run (calls : list call) (lastTimeStamp : Z) : option (list Z * Z) :=
  match calls with
  | [] => Some ([], lastTimeStamp)
  | c :: calls' =>
      match perform c lastTimeStamp with
      | None => None
      | Some (ts, m) =>
          match run calls' m with
          | None => None
          | Some (tss, m') => Some (ts :: tss, m')
          end
      end
  end.

(** [success env last old ms]: started with [lastTimeStamp = last], the
    loop leaves through an attempt that loaded [old] and read [ms] from
    the physical clock. *)
Inductive success : list attempt -> Z -> Z -> Z -> Prop :=
| success_now a env last :
    fst (compare_exchange_weak a last last 0) = true ->
    success (a :: env) last last (physical a)
| success_retry a env last old ms :
    fst (compare_exchange_weak a last last 0) = false ->
    success env (observed a last) old ms ->
    success (a :: env) last old ms.

(** Strictly increasing sequence of time stamps. *)
Fixpoint increasing (l : list Z) : Prop :=
  match l with
  | [] => True
  | x :: l' => match l' with [] => True | y :: _ => x < y end /\ increasing l'
  end.

(** ** The physical clock *)

Definition int64 (z : Z) : Prop := - 2 ^ 63 <= z < 2 ^ 63.

(** [getPhysicalTime()], from what [clock.now().time_since_epoch()]
    counts: [std::chrono::high_resolution_clock] counts nanoseconds in
    a signed 64-bit integer; [duration_cast<milliseconds>] divides by
    1000000 and rounds toward zero, and the assignment to [uint64_t]
    reduces modulo 2^64. *)
Definition getPhysicalTime (now : Z) : Z := wrap64 (Z.quot now 1000000).

(** A value [getPhysicalTime()] can return. *)
Definition reading (ms : Z) : Prop :=
  exists now, int64 now /\ ms = getPhysicalTime now.

(** ** The text form of a time stamp *)

(** [static_cast<uint8_t>(x)] *)
Definition to_uint8 (z : Z) : Z := z mod 256.

(** [static_cast<uint8_t>(s[i])] for a character of a string. *)
Definition char_code (c : ascii) : Z := Z.of_N (N_of_ascii c).

Section Codec.

(** [static char encodeTable[65]]: 64 symbols and the terminator. *)
Variable encodeTable : list ascii.

(** [static char decodeTable[256]]; [char] is signed, as the test
    [c < 0] of [decodeTimeStampWithCheck] supposes. *)
Variable decodeTable : list Z.

Definition encodeTable_at (i : Z) : ascii :=
  nth (Z.to_nat i) encodeTable zero.

Definition decodeTable_at (i : Z) : Z :=
  nth (Z.to_nat i) decodeTable 0.

(** [while (t > 0) { r[--pos] = encodeTable[...]; t >>= 6; }] on the
    buffer [r].  With [pos = 0] the decrement wraps around and the
    store falls outside the buffer: no result. *)
Fixpoint encodeLoop (pos : nat) (r : list ascii) (t : Z)
  : option (list ascii * nat) :=
  match pos with
  | O => if 0 <? t then None else Some (r, O)
  | S pos' =>
      if 0 <? t
      then encodeLoop pos'
             (<[pos' := encodeTable_at (to_uint8 (Z.land t 0x3f))]> r)
             (Z.shiftr t 6)
      else Some (r, pos)
  end.

(** [static std::string encodeTimeStamp(uint64_t t)] *)
Definition encodeTimeStamp (t : Z) : option string :=
  match encodeLoop 11 (replicate 11 zero) t with
  | Some (r, pos) =>
      Some (string_of_list_ascii (take (11 - pos) (drop pos r)))
  | None => None
  end.

(** One pass of the loop of [decodeTimeStamp]. *)
Definition decodeStep (r : Z) (c : ascii) : Z :=
  Z.lor (wrap64 (Z.shiftl r 6))
        (to_uint8 (decodeTable_at (char_code c))).

Fixpoint decodeLoop (s : string) (r : Z) : Z :=
  match s with
  | EmptyString => r
  | String c s' => decodeLoop s' (decodeStep r c)
  end.

(** [static uint64_t decodeTimeStamp(std::string const& s)] *)
Definition decodeTimeStamp (s : string) : Z := decodeLoop s 0.

Fixpoint decodeLoopWithCheck (s : string) (r : Z) : Z :=
  match s with
  | EmptyString => r
  | String ch s' =>
      let c := decodeTable_at (char_code ch) in
      if c <? 0 then 0
      else decodeLoopWithCheck s' (Z.lor (wrap64 (Z.shiftl r 6)) (to_uint8 c))
  end.

(** [static uint64_t decodeTimeStampWithCheck(std::string const& s)] *)
Definition decodeTimeStampWithCheck (s : string) : Z :=
  decodeLoopWithCheck s 0.

(** The 64 symbols of the alphabet are the first 64 table entries. *)
Definition in_alphabet (c : ascii) : bool :=
  existsb (Ascii.eqb c) (take 64 encodeTable).

End Codec.

(** The 6-bit groups written by [encodeLoop], most significant first. *)
Fixpoint digits (n : nat) (t : Z) : list Z :=
  match n with
  | O => []
  | S n' => if 0 <? t then digits n' (Z.shiftr t 6) ++ [Z.land t 0x3f] else []
  end.

(** Value of a list of 6-bit groups, most significant first. *)
Fixpoint value (ds : list Z) : Z :=
  match ds with
  | [] => 0
  | d :: ds' => d * 64 ^ Z.of_nat (length ds') + value ds'
  end.

(** [a < b] for [std::string]: characters compare by their code. *)
Definition string_lt (a b : string) : Prop := String.compare a b = Lt.

(** A 6-bit value. *)
Definition sixbit (d : Z) : Prop := 0 <= d < 64.

(** *** What the codec expects of its tables *)

(** [decodeTable] maps the symbol of every 6-bit value back to it. *)
Definition tables_inverse (encodeTable : list ascii) (decodeTable : list Z)
  : Prop :=
  forall v, sixbit v ->
    decodeTable_at decodeTable (char_code (encodeTable_at encodeTable v)) = v.

(** The symbols grow, as characters, with the values they stand for. *)
Definition table_increasing (encodeTable : list ascii) : Prop :=
  forall u v, sixbit u -> sixbit v -> u < v ->
    char_code (encodeTable_at encodeTable u)
    < char_code (encodeTable_at encodeTable v).

(** [decodeTable] is negative at every character outside the alphabet. *)
Definition table_rejects (encodeTable : list ascii) (decodeTable : list Z)
  : Prop :=
  forall c, in_alphabet encodeTable c = false ->
    decodeTable_at decodeTable (char_code c) < 0.

(** Different 6-bit values have different symbols. *)
Definition table_injective (encodeTable : list ascii) : Prop :=
  forall u v, sixbit u -> sixbit v ->
    encodeTable_at encodeTable u = encodeTable_at encodeTable v -> u = v.

(** [s] has a character at which [decodeTable] is negative. *)
Definition rejected (decodeTable : list Z) (s : string) : Prop :=
  exists c, In c (list_ascii_of_string s)
            /\ decodeTable_at decodeTable (char_code c) < 0.

(** The string of the symbols of a list of 6-bit values. *)
Definition symbols (encodeTable : list ascii) (ds : list Z) : string :=
  string_of_list_ascii (map (encodeTable_at encodeTable) ds).

(** The groups of a 64-bit number: 6-bit values, the first one not 0. *)
Definition canonical (ds : list Z) : Prop :=
  Forall sixbit ds /\ hd 1 ds <> 0 /\ value ds < 2 ^ 64.

(** Shorter strings first, equally long ones by [string_lt]. *)
Definition shortlex_lt (a b : string) : Prop :=
  (String.length a < String.length b)%nat
  \/ (String.length a = String.length b /\ string_lt a b).

(** Calls of [getTimeStamp()] that each meet one undisturbed attempt,
    with the given clock readings. *)
Definition ticks (readings : list Z) : list call :=
  map (fun ms => Tick [quiet ms]) readings.

(** Modelled from the spec: the definition of [encodeTable] is not part
    of the header.  The specification asks for 64 symbols whose
    character order is the order of the 6-bit values they stand for;
    this table is such an alphabet, with its terminator. *)
Definition sampleEncodeTable : list ascii :=
  list_ascii_of_string
    "-0123456789ABCDEFGHIJKLMNOPQRSTUVWXYZ_abcdefghijklmnopqrstuvwxyz"
  ++ [zero].

Fixpoint index_of (c : ascii) (l : list ascii) (i : Z) : Z :=
  match l with
  | [] => -1
  | x :: l' => if Ascii.eqb c x then i else index_of c l' (i + 1)
  end.

(** Modelled from the spec: the definition of [decodeTable] is not part
    of the header.  The inverse of [sampleEncodeTable], and [-1] at every
    character that is not a symbol. *)
Definition sampleDecodeTable : list Z :=
  map (fun n => index_of (ascii_of_nat n) (take 64 sampleEncodeTable) 0)
      (seq 0 256).

End HybridLogicalClock.

(** ** The merge as the specification words it *)

Module Spec.
Import HybridLogicalClock.

(** The counter of the candidate, with the counts read from the packed
    values [old] and [received]. *)
Definition newCount (received physical old : Z) : Z :=
  let oldTime := extractTime old in
  let recTime := extractTime received in
  let newTime := Z.max (Z.max oldTime physical) recTime in
  if (newTime =? oldTime) && (newTime =? recTime)
  then Z.max (extractCount old) (extractCount received) + 1
  else if newTime =? oldTime then extractCount old + 1
  else if newTime =? recTime then extractCount received + 1
  else 0.

Definition update (received physical old : Z) : Z :=
  let newTime :=
    Z.max (Z.max (extractTime old) physical) (extractTime received) in
  assembleTimeStamp newTime (newCount received physical old).

End Spec.


(** * Properties *)

(** ** Bit-level facts *)

Module Bits.

Lemma land_shiftl_low hi lo k :
  0 <= k -> 0 <= lo < 2 ^ k -> Z.land (Z.shiftl hi k) lo = 0.
Proof.
  intros Hk Hlo. apply Z.bits_inj'. intros n Hn.
  rewrite Z.land_spec, Z.bits_0.
  destruct (Z.lt_ge_cases n k) as [Hlt | Hge].
  - rewrite Z.shiftl_spec_low by lia. reflexivity.
  - destruct (Z.eq_dec lo 0) as [-> | Hne].
    + rewrite Z.bits_0. apply andb_false_r.
    + rewrite (Z.bits_above_log2 lo n); [apply andb_false_r | lia | ].
      assert (Z.log2 lo < k) by (apply Z.log2_lt_pow2; lia). lia.
Qed.

Lemma lor_shiftl_add hi lo k :
  0 <= k -> 0 <= lo < 2 ^ k -> Z.lor (Z.shiftl hi k) lo = hi * 2 ^ k + lo.
Proof.
  intros Hk Hlo.
  rewrite <- Z.lxor_lor by (apply land_shiftl_low; assumption).
  rewrite <- Z.add_nocarry_lxor by (apply land_shiftl_low; assumption).
  rewrite Z.shiftl_mul_pow2 by assumption. reflexivity.
Qed.

Lemma lor_pos a b : 0 <= a -> 0 < b -> 0 < Z.lor a b.
Proof.
  intros Ha Hb.
  assert (0 <= Z.lor a b) by (apply Z.lor_nonneg; lia).
  assert (Z.lor a b <> 0) by (rewrite Z.lor_eq_0_iff; lia).
  lia.
Qed.

Lemma wrap64_small z : 0 <= z < 2 ^ 64 -> wrap64 z = z.
Proof. intros H. unfold wrap64. apply Z.mod_small. exact H. Qed.

Lemma wrap64_nonneg z : 0 <= wrap64 z.
Proof. unfold wrap64. apply Z.mod_pos_bound. lia. Qed.

End Bits.

(** ** The clock *)

Module ClockFacts.
Import HybridLogicalClock Bits.

Lemma extractCount_mod t : extractCount t = t mod 2 ^ 20.
Proof.
  unfold extractCount. change 0xfffff with (Z.ones 20).
  apply Z.land_ones. lia.
Qed.

Lemma extractCount_range t : 0 <= extractCount t < 2 ^ 20.
Proof. rewrite extractCount_mod. apply Z.mod_pos_bound. lia. Qed.

Lemma extractTime_div t : extractTime t = t / 2 ^ 20.
Proof. unfold extractTime. apply Z.shiftr_div_pow2. lia. Qed.

Lemma extractTime_range t : uint64 t -> 0 <= extractTime t < 2 ^ 44.
Proof.
  unfold uint64. intros H. rewrite extractTime_div. split.
  - apply Z.div_pos; lia.
  - apply Z.div_lt_upper_bound; lia.
Qed.

Lemma count_succ_nowrap t : wrap64 (extractCount t + 1) = extractCount t + 1.
Proof. pose proof (extractCount_range t). apply wrap64_small. lia. Qed.

Lemma assembleTimeStamp_add time count :
  0 <= time < 2 ^ 44 -> 0 <= count < 2 ^ 20 ->
  assembleTimeStamp time count = time * 2 ^ 20 + count.
Proof.
  intros Ht Hc. unfold assembleTimeStamp.
  rewrite wrap64_small.
  - apply lor_shiftl_add; lia.
  - rewrite Z.shiftl_mul_pow2 by lia. lia.
Qed.

Lemma assemble_extract t :
  uint64 t -> assembleTimeStamp (extractTime t) (extractCount t) = t.
Proof.
  intros H.
  rewrite assembleTimeStamp_add
    by (auto using extractTime_range, extractCount_range).
  rewrite extractTime_div, extractCount_mod.
  pose proof (Z.div_mod t (2 ^ 20)). lia.
Qed.

(** The loop returns the candidate of the attempt that succeeds, and
    that candidate is what [lastTimeStamp] then holds. *)
Lemma cas_loop_success body env last old ms :
  success env last old ms ->
  cas_loop body env last = Some (body ms old, body ms old).
Proof.
  induction 1 as [a env last Hok | a env last old ms Hfail _ IH]; simpl.
  - unfold compare_exchange_weak in *.
    destruct ((observed a last =? last) && negb (spurious a));
      [reflexivity | discriminate].
  - unfold compare_exchange_weak in *.
    destruct ((observed a last =? last) && negb (spurious a));
      [discriminate | exact IH].
Qed.

Lemma cas_loop_inv body env last r m :
  cas_loop body env last = Some (r, m) ->
  exists old ms, success env last old ms /\ r = body ms old /\ m = r.
Proof.
  revert last. induction env as [| a env IH]; intros last; simpl.
  - discriminate.
  - destruct (compare_exchange_weak a last last (body (physical a) last))
      as [[] m'] eqn:E.
    + intros [= <- <-]. exists last, (physical a).
      unfold compare_exchange_weak in E.
      destruct ((observed a last =? last) && negb (spurious a)) eqn:Ec;
        [| discriminate].
      injection E as <-. repeat split.
      apply success_now. unfold compare_exchange_weak. rewrite Ec. reflexivity.
    + intros Hloop.
      unfold compare_exchange_weak in E.
      destruct ((observed a last =? last) && negb (spurious a)) eqn:Ec;
        [discriminate |].
      injection E as <-.
      destruct (IH _ Hloop) as (old & ms & Hs & -> & ->).
      exists old, ms. repeat split.
      apply success_retry; [| exact Hs].
      unfold compare_exchange_weak. rewrite Ec. reflexivity.
Qed.

(** An undisturbed attempt succeeds at once. *)
Lemma success_quiet ms env last : success (quiet ms :: env) last last ms.
Proof.
  apply (success_now (quiet ms)).
  unfold compare_exchange_weak, observed. simpl.
  rewrite Z.eqb_refl. reflexivity.
Qed.

(** A loop that meets an undisturbed attempt returns. *)
Lemma cas_loop_returns body env1 ms env2 last :
  exists r, cas_loop body (env1 ++ quiet ms :: env2) last = Some (r, r).
Proof.
  revert last. induction env1 as [| a env1 IH]; intros last.
  - exists (body ms last). apply cas_loop_success, success_quiet.
  - simpl.
    destruct (compare_exchange_weak a last last (body (physical a) last))
      as [[] m'] eqn:E.
    + unfold compare_exchange_weak in E.
      destruct ((observed a last =? last) && negb (spurious a));
        [| discriminate].
      injection E as <-. eauto.
    + apply IH.
Qed.

(** The source lets [getTimeStamp()] bump the count of the packed value
    it loaded: below the limits of the two fields the result is above
    that value. *)
Lemma tickBody_increases ms old :
  uint64 old -> 0 <= ms < 2 ^ 44 -> extractCount old + 1 < 2 ^ 20 ->
  old < tickBody ms old.
Proof.
  intros Hold Hms Hc. unfold tickBody.
  pose proof (extractTime_range old Hold) as Ht.
  pose proof (extractCount_range old) as Hr.
  rewrite count_succ_nowrap.
  destruct (Z.leb_spec ms (extractTime old)).
  - rewrite assembleTimeStamp_add by lia.
    rewrite <- (assemble_extract old Hold) at 1.
    rewrite assembleTimeStamp_add by lia. lia.
  - rewrite assembleTimeStamp_add by lia.
    rewrite <- (assemble_extract old Hold) at 1.
    rewrite assembleTimeStamp_add by lia. lia.
Qed.

(** The merge as the specification words it dominates both the stored
    and the received value, below the limits of the two fields. *)
Lemma spec_update_dominates received ms old :
  uint64 old -> uint64 received -> 0 <= ms < 2 ^ 44 ->
  Spec.newCount received ms old < 2 ^ 20 ->
  old < Spec.update received ms old /\ received < Spec.update received ms old.
Proof.
  intros Hold Hrec Hms. unfold Spec.update, Spec.newCount.
  pose proof (extractTime_range old Hold) as Ht.
  pose proof (extractTime_range received Hrec) as Htr.
  pose proof (extractCount_range old) as Hc.
  pose proof (extractCount_range received) as Hcr.
  pose proof (assemble_extract old Hold) as Eo.
  pose proof (assemble_extract received Hrec) as Er.
  rewrite assembleTimeStamp_add in Eo, Er by lia.
  cbv zeta.
  set (newTime := Z.max (Z.max (extractTime old) ms) (extractTime received)).
  assert (extractTime old <= newTime /\ extractTime received <= newTime
          /\ newTime < 2 ^ 44)
    as (H1 & H2 & H3) by (unfold newTime; lia).
  clearbody newTime.
  destruct (Z.eqb_spec newTime (extractTime old)) as [E1 | E1];
    destruct (Z.eqb_spec newTime (extractTime received)) as [E2 | E2];
    cbn [andb]; intros Hn;
    rewrite assembleTimeStamp_add by lia; lia.
Qed.

(** C5. [getTimeStamp()] returns, for the value [old] loaded and the
    clock reading [ms] of the attempt whose exchange succeeds, the packed
    [(old >> 20, (old & 0xfffff) + 1)] when [ms <= old >> 20] and the
    packed [(ms, 0)] otherwise, where packing is [(time << 20) | count]
    in 64 bits; it stores what it returns, and every value it returns
    arises so.  In numbers, for a 64-bit [old]: the result is [old + 1]
    when the reading is not ahead and the count [old mod 2^20] is not
    the last one, and [ms * 2^20] when a reading under 2^44 is ahead.
    On a fresh clock at reading 1000000 two calls in a row return
    1000000 * 2^20 and 1000000 * 2^20 + 1; over a stored count of 5 at
    that reading the call returns the count 6. *)
Theorem getTimeStamp_tick :
  (forall env last old ms,
      success env last old ms ->
      let ts := if ms <=? Z.shiftr old 20
                then Z.lor (Z.shiftl (Z.shiftr old 20) 20 mod 2 ^ 64)
                           (Z.land old 0xfffff + 1)
                else Z.lor (Z.shiftl ms 20 mod 2 ^ 64) 0 in
      getTimeStamp env last = Some (ts, ts))
  /\ (forall env last ts m,
        getTimeStamp env last = Some (ts, m) ->
        exists old ms,
          success env last old ms /\ m = ts
          /\ ts = if ms <=? Z.shiftr old 20
                  then Z.lor (Z.shiftl (Z.shiftr old 20) 20 mod 2 ^ 64)
                             (Z.land old 0xfffff + 1)
                  else Z.lor (Z.shiftl ms 20 mod 2 ^ 64) 0)
  /\ (forall env last old ms,
        success env last old ms -> 0 <= old < 2 ^ 64 ->
        (ms <= old / 2 ^ 20 -> old mod 2 ^ 20 + 1 < 2 ^ 20 ->
         getTimeStamp env last = Some (old + 1, old + 1))
        /\ (old / 2 ^ 20 < ms < 2 ^ 44 ->
            getTimeStamp env last = Some (ms * 2 ^ 20, ms * 2 ^ 20)))
  /\ run [Tick [quiet 1000000]; Tick [quiet 1000000]] 0
     = Some ([1048576000000; 1048576000001], 1048576000001)
  /\ run [Tick [quiet 1000000]] 1048576000005
     = Some ([1048576000006], 1048576000006)
  /\ run [Tick [quiet 1000001]] 1048576000005
     = Some ([1048577048576], 1048577048576).
Proof.
  assert (forall ms old,
            tickBody ms old
            = if ms <=? Z.shiftr old 20
              then Z.lor (Z.shiftl (Z.shiftr old 20) 20 mod 2 ^ 64)
                         (Z.land old 0xfffff + 1)
              else Z.lor (Z.shiftl ms 20 mod 2 ^ 64) 0) as Ebody.
  { intros ms old. unfold tickBody. rewrite count_succ_nowrap. reflexivity. }
  split; [| split; [| split; [| repeat split; reflexivity]]].
  - intros env last old ms Hs ts. unfold getTimeStamp.
    rewrite (cas_loop_success tickBody env last old ms Hs).
    subst ts. rewrite <- Ebody. reflexivity.
  - intros env last ts m Hret.
    destruct (cas_loop_inv tickBody env last ts m Hret)
      as (old & ms & Hs & -> & ->).
    exists old, ms. repeat split; [exact Hs | apply Ebody].
  - intros env last old ms Hs Hold. unfold getTimeStamp.
    rewrite (cas_loop_success tickBody env last old ms Hs).
    pose proof (extractTime_range old Hold) as Ht.
    pose proof (extractCount_range old) as Hc.
    pose proof (assemble_extract old Hold) as Eold.
    rewrite assembleTimeStamp_add in Eold by lia.
    unfold tickBody. rewrite count_succ_nowrap.
    rewrite <- extractTime_div, <- extractCount_mod. split.
    + intros Hms Hcount.
      destruct (Z.leb_spec ms (extractTime old)); [| lia].
      rewrite assembleTimeStamp_add by lia.
      replace (extractTime old * 2 ^ 20 + (extractCount old + 1))
        with (old + 1) by lia.
      reflexivity.
    + intros Hms.
      destruct (Z.leb_spec ms (extractTime old)); [lia |].
      rewrite assembleTimeStamp_add by lia.
      rewrite Z.add_0_r. reflexivity.
Qed.

Lemma getTimeStamp_tick_witness :
  getTimeStamp [Attempt 999999 None true; quiet 1000000] 1048576000005
  = Some (1048576000006, 1048576000006)
  /\ getTimeStamp [Attempt 999999 (Some 5) false; quiet 1000000] 0
     = Some (1048576000000, 1048576000000).
Proof.
  split.
  - apply (proj1 (proj2 (proj2 getTimeStamp_tick))
             [Attempt 999999 None true; quiet 1000000]
             1048576000005 1048576000005 1000000).
    + apply success_retry; [reflexivity |].
      apply (success_now (quiet 1000000)). reflexivity.
    + lia.
    + vm_compute. discriminate.
    + vm_compute. reflexivity.
  - apply (proj1 getTimeStamp_tick
             [Attempt 999999 (Some 5) false; quiet 1000000] 0 5 1000000).
    apply success_retry; [reflexivity |].
    apply (success_now (quiet 1000000)). reflexivity.
Defined.

(** What [getTimeStamp(receivedTimeStamp)] returns: the candidate of the
    successful attempt, with the counts read from the time components. *)
Lemma getTimeStampReceived_merge received env last old ms :
  success env last old ms ->
  getTimeStampReceived received env last
  = Some (mergeBody received ms old, mergeBody received ms old).
Proof. apply cas_loop_success. Qed.

(** Where the clock reading is above both time components no count is
    read, and the source agrees with the specification. *)
Lemma mergeBody_physical_ahead received ms old :
  extractTime old < ms -> extractTime received < ms ->
  mergeBody received ms old = Spec.update received ms old
  /\ mergeBody received ms old = assembleTimeStamp ms 0.
Proof.
  intros H1 H2. unfold mergeBody, Spec.update, Spec.newCount.
  replace (Z.max (Z.max (extractTime old) ms) (extractTime received))
    with ms by lia.
  destruct (Z.eqb_spec ms (extractTime old)); [lia |].
  destruct (Z.eqb_spec ms (extractTime received)); [lia |].
  split; reflexivity.
Qed.

(** C1. The counter of the merged time stamp is not the one computed
    from the packed inputs.  With the packed (1000000, 3) stored, the
    packed (999999, 7) received and the clock at 1000000, the stored time
    is the only maximum and the count is to be 3 + 1; the source returns
    the count 1000001, the low 20 bits of the time 1000000 plus one. *)
Theorem getTimeStampReceived_count_diverges :
  let old := assembleTimeStamp 1000000 3 in
  let received := assembleTimeStamp 999999 7 in
  getTimeStampReceived received [quiet 1000000] old
  = Some (assembleTimeStamp 1000000 1000001,
          assembleTimeStamp 1000000 1000001)
  /\ Spec.update received 1000000 old = assembleTimeStamp 1000000 4
  /\ assembleTimeStamp 1000000 1000001 <> assembleTimeStamp 1000000 4
  /\ extractCount (extractTime old) + 1 = 1000001.
Proof. repeat split; try reflexivity. discriminate. Qed.

(** C2. With the packed (1000000, 3) stored, the clock at 1500000 and
    the packed (2000000, 5) received, the source returns the packed
    (2000000, 951425) and not the packed (2000000, 6): 951424 is the low
    20 bits of the time 2000000. *)
Theorem getTimeStampReceived_scenario :
  getTimeStampReceived (assembleTimeStamp 2000000 5) [quiet 1500000]
                       (assembleTimeStamp 1000000 3)
  = Some (assembleTimeStamp 2000000 951425, assembleTimeStamp 2000000 951425)
  /\ assembleTimeStamp 2000000 951425 <> assembleTimeStamp 2000000 6
  /\ Spec.update (assembleTimeStamp 2000000 5) 1500000
                 (assembleTimeStamp 1000000 3)
     = assembleTimeStamp 2000000 6
  /\ extractCount 2000000 = 951424.
Proof. repeat split; try reflexivity. discriminate. Qed.

(** C3. A run of calls in one millisecond, counts far below 2^20: a
    tick and two merges of the same older time stamp.  The two merges
    return the same value. *)
Theorem run_not_increasing :
  let received := assembleTimeStamp 999999 7 in
  let calls := [Tick [quiet 1000000];
                Update received [quiet 1000000];
                Update received [quiet 1000000]] in
  exists a b,
    run calls 0 = Some ([a; b; b], b)
    /\ ~ increasing [a; b; b]
    /\ extractCount a = 0 /\ extractCount b = 1000001
    /\ 1000001 < 2 ^ 20 - 1.
Proof.
  exists (assembleTimeStamp 1000000 0), (assembleTimeStamp 1000000 1000001).
  repeat split; try reflexivity.
  simpl. intros (_ & H & _). vm_compute in H. discriminate.
Qed.

(** C4. The value returned by a merge is not above the value it
    replaces (first scenario: it is that value again), nor above the
    received one (second scenario: the received time 2097152 has its low
    20 bits clear, and the count 5 is answered by the count 1). *)
Theorem getTimeStampReceived_not_dominating :
  (let old := assembleTimeStamp 1000000 1000001 in
   getTimeStampReceived (assembleTimeStamp 999999 7) [quiet 1000000] old
   = Some (old, old))
  /\ (let received := assembleTimeStamp 2097152 5 in
      exists ts,
        getTimeStampReceived received [quiet 1000000]
                             (assembleTimeStamp 1000000 0)
        = Some (ts, ts)
        /\ ts < received
        /\ extractCount ts = 1 /\ extractCount received = 5).
Proof.
  split; [reflexivity |].
  exists (assembleTimeStamp 2097152 1). repeat split; reflexivity.
Qed.

End ClockFacts.

(** ** The codec *)

Module CodecFacts.
Import HybridLogicalClock Bits.

Lemma land_0x3f t : Z.land t 0x3f = t mod 64.
Proof. change 0x3f with (Z.ones 6). apply Z.land_ones. lia. Qed.

Lemma shiftr_6 t : Z.shiftr t 6 = t / 64.
Proof. apply Z.shiftr_div_pow2. lia. Qed.

Lemma pow64_pos n : 0 < 64 ^ Z.of_nat n.
Proof. apply Z.pow_pos_nonneg; lia. Qed.

Lemma pow64_succ n : 64 ^ Z.of_nat (S n) = 64 * 64 ^ Z.of_nat n.
Proof. rewrite Nat2Z.inj_succ, Z.pow_succ_r by lia. reflexivity. Qed.

(** *** The 6-bit groups of a number *)

Lemma digits_sixbit n t : Forall sixbit (digits n t).
Proof.
  revert t. induction n as [| n IH]; intros t; simpl.
  - constructor.
  - destruct (0 <? t); [| constructor].
    apply Forall_app. split; [apply IH |].
    constructor; [| constructor].
    unfold sixbit. rewrite land_0x3f. apply Z.mod_pos_bound. lia.
Qed.

Lemma digits_length n t : (length (digits n t) <= n)%nat.
Proof.
  revert t. induction n as [| n IH]; intros t; simpl.
  - lia.
  - destruct (0 <? t); simpl; [| lia].
    rewrite length_app. simpl. specialize (IH (Z.shiftr t 6)). lia.
Qed.

Lemma value_snoc ds d : value (ds ++ [d]) = value ds * 64 + d.
Proof.
  induction ds as [| x ds IH]; simpl.
  - lia.
  - rewrite IH, length_app. simpl length.
    replace (length ds + 1)%nat with (S (length ds)) by lia.
    rewrite pow64_succ. lia.
Qed.

Lemma digits_value n t : 0 <= t < 64 ^ Z.of_nat n -> value (digits n t) = t.
Proof.
  revert t. induction n as [| n IH]; intros t Ht.
  - simpl in *. lia.
  - simpl digits. destruct (Z.ltb_spec 0 t) as [Hpos | Hzero].
    + rewrite value_snoc, IH, shiftr_6, land_0x3f.
      * pose proof (Z.div_mod t 64). lia.
      * rewrite shiftr_6. rewrite pow64_succ in Ht. split.
        -- apply Z.div_pos; lia.
        -- apply Z.div_lt_upper_bound; lia.
    + simpl. lia.
Qed.

Lemma value_bounds ds :
  Forall sixbit ds -> 0 <= value ds < 64 ^ Z.of_nat (length ds).
Proof.
  induction 1 as [| d ds Hd _ IH]; simpl value; simpl length.
  - simpl. lia.
  - rewrite pow64_succ. unfold sixbit in Hd.
    pose proof (pow64_pos (length ds)). nia.
Qed.

Lemma digits_nil n t : 0 <= t < 64 ^ Z.of_nat n -> digits n t = [] -> t = 0.
Proof.
  intros Ht E. rewrite <- (digits_value n t Ht), E. reflexivity.
Qed.

(** The leading group is not zero. *)
Lemma digits_head n t d ds :
  0 <= t < 64 ^ Z.of_nat n -> digits n t = d :: ds -> 1 <= d < 64.
Proof.
  revert t d ds. induction n as [| n IH]; intros t d ds Ht; simpl digits.
  - discriminate.
  - destruct (Z.ltb_spec 0 t) as [Hpos | Hzero]; [| discriminate].
    assert (0 <= Z.shiftr t 6 < 64 ^ Z.of_nat n) as Hq.
    { rewrite shiftr_6. rewrite pow64_succ in Ht. split.
      - apply Z.div_pos; lia.
      - apply Z.div_lt_upper_bound; lia. }
    destruct (digits n (Z.shiftr t 6)) as [| d' ds'] eqn:E.
    + simpl. intros [= <- <-].
      apply (digits_nil n _ Hq) in E. rewrite shiftr_6 in E.
      rewrite land_0x3f. pose proof (Z.div_mod t 64).
      pose proof (Z.mod_pos_bound t 64). lia.
    + simpl. intros [= <- <-]. apply (IH _ _ _ Hq E).
Qed.

(** The number of groups is the least that holds the number. *)
Lemma digits_minimal n t :
  0 <= t < 64 ^ Z.of_nat n ->
  let k := length (digits n t) in
  t < 64 ^ Z.of_nat k /\ (0 < t -> 64 ^ (Z.of_nat k - 1) <= t).
Proof.
  intros Ht k. subst k.
  pose proof (digits_sixbit n t) as Hall.
  pose proof (digits_value n t Ht) as Hval.
  pose proof (value_bounds _ Hall) as Hb.
  split; [lia |]. intros Hpos.
  destruct (digits n t) as [| d ds] eqn:E.
  - simpl in Hval. lia.
  - pose proof (digits_head n t d ds Ht E) as Hd.
    apply Forall_cons in Hall as [_ Hds].
    pose proof (value_bounds _ Hds) as Hb'.
    simpl value in Hval. simpl length.
    replace (Z.of_nat (S (length ds)) - 1) with (Z.of_nat (length ds)) by lia.
    pose proof (pow64_pos (length ds)). nia.
Qed.

(** *** Strings *)

Lemma string_length_of_list l :
  String.length (string_of_list_ascii l) = length l.
Proof. induction l as [| c l IH]; simpl; [reflexivity | now rewrite IH]. Qed.

Lemma ascii_compare_refl c : Ascii.compare c c = Eq.
Proof. unfold Ascii.compare. apply N.compare_refl. Qed.

Lemma ascii_compare_lt c1 c2 :
  char_code c1 < char_code c2 -> Ascii.compare c1 c2 = Lt.
Proof.
  unfold char_code, Ascii.compare. intros H.
  apply N.compare_lt_iff. lia.
Qed.

(** *** [encodeTimeStamp] writes the 6-bit groups *)

Section Encode.

Variable encodeTable : list ascii.

Local Abbreviation symbol := (encodeTable_at encodeTable).

Lemma encodeLoop_digits pos : forall pre suf t,
  length pre = pos -> 0 <= t < 64 ^ Z.of_nat pos ->
  let ds := digits pos t in
  encodeLoop encodeTable pos (pre ++ suf) t
  = Some (take (pos - length ds) pre ++ map symbol ds ++ suf,
          (pos - length ds)%nat).
Proof.
  induction pos as [| pos IH]; intros pre suf t Hlen Ht; simpl.
  - destruct (Z.ltb_spec 0 t); [simpl in Ht; lia |].
    destruct pre; [reflexivity | discriminate].
  - destruct (Z.ltb_spec 0 t) as [Hpos | Hzero].
    + destruct (List.exists_last (l := pre)) as (pre' & x & ->);
        [intros ->; discriminate |].
      rewrite length_app in Hlen. simpl in Hlen.
      assert (length pre' = pos) as Hlen' by lia.
      rewrite <- app_assoc. simpl.
      rewrite insert_app_r_alt by lia.
      replace (pos - length pre')%nat with 0%nat by lia. simpl.
      assert (0 <= Z.shiftr t 6 < 64 ^ Z.of_nat pos) as Hq.
      { rewrite shiftr_6. rewrite pow64_succ in Ht. split.
        - apply Z.div_pos; lia.
        - apply Z.div_lt_upper_bound; lia. }
      rewrite (IH pre' _ _ Hlen' Hq).
      pose proof (digits_length pos (Z.shiftr t 6)) as Hk.
      rewrite length_app. simpl length.
      replace (S pos - (length (digits pos (Z.shiftr t 6)) + 1))%nat
        with (pos - length (digits pos (Z.shiftr t 6)))%nat by lia.
      rewrite take_app_le by lia.
      rewrite map_app, <- app_assoc. simpl.
      unfold symbol, to_uint8.
      rewrite (Z.mod_small (Z.land t 63) 256); [reflexivity |].
      rewrite land_0x3f. pose proof (Z.mod_pos_bound t 64). lia.
    + simpl. rewrite <- Hlen, firstn_all. reflexivity.
Qed.

(** On 64-bit input the loop stays inside the buffer and the result is
    the symbols of the groups. *)
Lemma encodeTimeStamp_digits t :
  uint64 t ->
  encodeTimeStamp encodeTable t
  = Some (string_of_list_ascii (map symbol (digits 11 t))).
Proof.
  unfold uint64. intros Ht. unfold encodeTimeStamp.
  assert (0 <= t < 64 ^ Z.of_nat 11) as Ht' by (simpl; lia).
  pose proof (encodeLoop_digits 11 (replicate 11 zero) [] t eq_refl Ht') as E.
  cbv zeta in E. rewrite app_nil_r in E. rewrite E.
  pose proof (digits_length 11 t) as Hk.
  do 2 f_equal. rewrite app_nil_r.
  set (ds := digits 11 t) in *.
  rewrite drop_app_length'.
  - replace (11 - (11 - length ds))%nat with (length (map symbol ds))
      by (rewrite length_map; lia).
    apply firstn_all.
  - rewrite length_take, length_replicate. lia.
Qed.

End Encode.

(** *** Reading the symbols back *)

Section Decode.

Variable encodeTable : list ascii.
Variable decodeTable : list Z.
Hypothesis Hinv : tables_inverse encodeTable decodeTable.

Local Abbreviation symbol := (encodeTable_at encodeTable).

Lemma decodeStep_symbol r d :
  sixbit d -> 0 <= r -> r * 64 < 2 ^ 64 ->
  decodeStep decodeTable r (symbol d) = r * 64 + d.
Proof.
  unfold sixbit. intros Hd Hr Hsmall. unfold decodeStep.
  rewrite Hinv by exact Hd.
  unfold to_uint8. rewrite (Z.mod_small d 256) by lia.
  rewrite wrap64_small by (rewrite Z.shiftl_mul_pow2; lia).
  apply (lor_shiftl_add r d 6); lia.
Qed.

Lemma decodeLoop_symbols ds : forall r,
  Forall sixbit ds -> 0 <= r ->
  r * 64 ^ Z.of_nat (length ds) + value ds < 2 ^ 64 ->
  decodeLoop decodeTable (string_of_list_ascii (map symbol ds)) r
  = r * 64 ^ Z.of_nat (length ds) + value ds.
Proof.
  induction ds as [| d ds IH]; intros r Hall Hr Hsmall.
  - simpl. lia.
  - apply Forall_cons in Hall as [Hd Hds].
    pose proof (value_bounds ds Hds) as Hb.
    pose proof (pow64_pos (length ds)) as Hp.
    simpl length in *. simpl value in *. rewrite pow64_succ in *.
    unfold sixbit in Hd.
    simpl. rewrite decodeStep_symbol by (unfold sixbit; nia).
    rewrite IH by (try assumption; nia). lia.
Qed.

End Decode.

(** *** Order of equally long encodings *)

Section Order.

Variable encodeTable : list ascii.
Hypothesis Hmono : table_increasing encodeTable.

Local Abbreviation symbol := (encodeTable_at encodeTable).

Lemma compare_symbols ds1 : forall ds2,
  length ds1 = length ds2 -> Forall sixbit ds1 -> Forall sixbit ds2 ->
  value ds1 < value ds2 ->
  String.compare (string_of_list_ascii (map symbol ds1))
                 (string_of_list_ascii (map symbol ds2)) = Lt.
Proof.
  induction ds1 as [| d1 ds1 IH]; intros [| d2 ds2] Hlen H1 H2 Hlt;
    simpl in Hlen; try discriminate.
  apply Forall_cons in H1 as [Hd1 Hds1].
  apply Forall_cons in H2 as [Hd2 Hds2].
  injection Hlen as Hlen.
  pose proof (value_bounds ds1 Hds1) as Hb1.
  pose proof (value_bounds ds2 Hds2) as Hb2.
  pose proof (pow64_pos (length ds1)) as Hp.
  simpl value in Hlt. rewrite <- Hlen in *.
  simpl. destruct (Z.lt_trichotomy d1 d2) as [Hd | [-> | Hd]].
  - rewrite ascii_compare_lt by (apply Hmono; assumption). reflexivity.
  - rewrite ascii_compare_refl. apply IH; try assumption. lia.
  - unfold sixbit in *. nia.
Qed.

End Order.

(** *** The checked decoder *)

Section Check.

Variable decodeTable : list Z.

Local Abbreviation entry c := (decodeTable_at decodeTable (char_code c)).

Lemma decodeLoopWithCheck_invalid s : forall r,
  (exists c, In c (list_ascii_of_string s) /\ entry c < 0) ->
  decodeLoopWithCheck decodeTable s r = 0.
Proof.
  induction s as [| ch s IH]; intros r (c & Hin & Hneg); simpl in *.
  - contradiction.
  - destruct (Z.ltb_spec (entry ch) 0) as [_ | Hok]; [reflexivity |].
    destruct Hin as [-> | Hin]; [lia |].
    apply IH. exists c. split; assumption.
Qed.

Lemma decodeLoopWithCheck_valid s : forall r,
  (forall c, In c (list_ascii_of_string s) -> 0 <= entry c) ->
  decodeLoopWithCheck decodeTable s r = decodeLoop decodeTable s r.
Proof.
  induction s as [| ch s IH]; intros r Hall; simpl in *.
  - reflexivity.
  - destruct (Z.ltb_spec (entry ch) 0) as [Hneg | _].
    + specialize (Hall ch (or_introl eq_refl)). lia.
    + apply IH. intros c Hc. apply Hall. right. exact Hc.
Qed.

End Check.

Lemma in_alphabet_symbol encodeTable c :
  in_alphabet encodeTable c = true ->
  exists v, sixbit v /\ encodeTable_at encodeTable v = c.
Proof.
  unfold in_alphabet. intros H.
  apply existsb_exists in H as (x & Hin & Heq).
  apply Ascii.eqb_eq in Heq. subst x.
  apply (In_nth _ _ zero) in Hin as (n & Hn & Hnth).
  rewrite length_take in Hn.
  exists (Z.of_nat n). split; [unfold sixbit; lia |].
  unfold encodeTable_at. rewrite Nat2Z.id.
  rewrite <- Hnth, nth_firstn.
  destruct (Nat.ltb_spec n 64); [reflexivity | lia].
Qed.

Lemma tables_inverse_injective encodeTable decodeTable :
  tables_inverse encodeTable decodeTable -> table_injective encodeTable.
Proof.
  intros Hinv u v Hu Hv E.
  rewrite <- (Hinv u Hu), <- (Hinv v Hv), E. reflexivity.
Qed.

Lemma table_increasing_injective encodeTable :
  table_increasing encodeTable -> table_injective encodeTable.
Proof.
  intros Hmono u v Hu Hv E.
  destruct (Z.lt_trichotomy u v) as [H | [H | H]]; [| exact H |].
  - pose proof (Hmono u v Hu Hv H) as Hlt. rewrite E in Hlt. lia.
  - pose proof (Hmono v u Hv Hu H) as Hlt. rewrite E in Hlt. lia.
Qed.

(** *** The sample tables *)

Lemma sample_tables_inverse : tables_inverse sampleEncodeTable sampleDecodeTable.
Proof.
  intros v Hv. unfold sixbit in Hv.
  assert (forallb
            (fun n => decodeTable_at sampleDecodeTable
                        (char_code (encodeTable_at sampleEncodeTable
                                      (Z.of_nat n))) =? Z.of_nat n)
            (seq 0 64) = true) as H by (vm_compute; reflexivity).
  rewrite forallb_forall in H. specialize (H (Z.to_nat v)).
  rewrite Z2Nat.id in H by lia. apply Z.eqb_eq, H, in_seq. lia.
Qed.

Lemma sample_table_increasing : table_increasing sampleEncodeTable.
Proof.
  assert (forall n, (n < 63)%nat ->
            char_code (encodeTable_at sampleEncodeTable (Z.of_nat n))
            < char_code (encodeTable_at sampleEncodeTable (Z.of_nat (S n))))
    as Hstep.
  { assert (forallb
              (fun n =>
                 char_code (encodeTable_at sampleEncodeTable (Z.of_nat n))
                 <? char_code (encodeTable_at sampleEncodeTable
                                 (Z.of_nat (S n))))
              (seq 0 63) = true) as H by (vm_compute; reflexivity).
    rewrite forallb_forall in H. intros n Hn.
    apply Z.ltb_lt, H, in_seq. lia. }
  assert (forall k n, (n + S k < 64)%nat ->
            char_code (encodeTable_at sampleEncodeTable (Z.of_nat n))
            < char_code (encodeTable_at sampleEncodeTable
                           (Z.of_nat (n + S k)))) as Hgap.
  { induction k as [| k IH]; intros n Hn.
    - replace (n + 1)%nat with (S n) by lia. apply Hstep. lia.
    - replace (n + S (S k))%nat with (S (n + S k)) by lia.
      eapply Z.lt_trans; [apply IH | apply Hstep]; lia. }
  intros u v Hu Hv Huv. unfold sixbit in *.
  specialize (Hgap (Z.to_nat (v - u - 1)) (Z.to_nat u)).
  replace (Z.to_nat u + S (Z.to_nat (v - u - 1)))%nat with (Z.to_nat v)
    in Hgap by lia.
  rewrite !Z2Nat.id in Hgap by lia. apply Hgap. lia.
Qed.

Lemma sample_table_rejects : table_rejects sampleEncodeTable sampleDecodeTable.
Proof.
  intros c Hc.
  assert (forallb
            (fun n => in_alphabet sampleEncodeTable (ascii_of_nat n)
                      || (decodeTable_at sampleDecodeTable
                            (char_code (ascii_of_nat n)) <? 0))
            (seq 0 256) = true) as H by (vm_compute; reflexivity).
  rewrite forallb_forall in H.
  assert (In (nat_of_ascii c) (seq 0 256)) as Hin
    by (apply in_seq; pose proof (nat_ascii_bounded c); lia).
  apply H in Hin. rewrite ascii_nat_embedding, Hc in Hin.
  apply Z.ltb_lt. exact Hin.
Qed.

(** *** The claims on the codec *)

(** C6. With a decode table that inverts the encode table, decoding the
    encoding of a 64-bit time stamp gives the time stamp back (and the
    encoder does produce a string for it). *)
Theorem decode_encode_roundtrip encodeTable decodeTable t :
  tables_inverse encodeTable decodeTable -> uint64 t ->
  exists s, encodeTimeStamp encodeTable t = Some s
            /\ decodeTimeStamp decodeTable s = t.
Proof.
  intros Hinv Ht. eexists. split; [apply encodeTimeStamp_digits, Ht |].
  unfold decodeTimeStamp. unfold uint64 in Ht.
  assert (0 <= t < 64 ^ Z.of_nat 11) as Ht' by (simpl; lia).
  rewrite (decodeLoop_symbols encodeTable decodeTable Hinv).
  - rewrite (digits_value 11 t Ht'). lia.
  - apply digits_sixbit.
  - lia.
  - rewrite (digits_value 11 t Ht'). lia.
Qed.

Lemma decode_encode_roundtrip_witness :
  exists s, encodeTimeStamp sampleEncodeTable 1048576000001 = Some s
            /\ decodeTimeStamp sampleDecodeTable s = 1048576000001.
Proof.
  apply decode_encode_roundtrip.
  - exact sample_tables_inverse.
  - unfold uint64. lia.
Defined.

(** C7. With an encode table whose symbols grow with the 6-bit values,
    two 64-bit time stamps [a < b] whose encodings are equally long have
    encodings in the same order, as strings. *)
Theorem encode_order encodeTable a b :
  table_increasing encodeTable -> uint64 a -> uint64 b -> a < b ->
  exists sa sb,
    encodeTimeStamp encodeTable a = Some sa
    /\ encodeTimeStamp encodeTable b = Some sb
    /\ (String.length sa = String.length sb -> string_lt sa sb).
Proof.
  intros Hmono Ha Hb Hlt. do 2 eexists.
  split; [apply encodeTimeStamp_digits, Ha |].
  split; [apply encodeTimeStamp_digits, Hb |].
  rewrite !string_length_of_list, !length_map. intros Hlen.
  unfold uint64 in *.
  assert (0 <= a < 64 ^ Z.of_nat 11) as Ha' by (simpl; lia).
  assert (0 <= b < 64 ^ Z.of_nat 11) as Hb' by (simpl; lia).
  apply (compare_symbols encodeTable Hmono).
  - exact Hlen.
  - apply digits_sixbit.
  - apply digits_sixbit.
  - rewrite (digits_value 11 a Ha'), (digits_value 11 b Hb'). exact Hlt.
Qed.

Lemma encode_order_witness :
  encodeTimeStamp sampleEncodeTable 64 = Some "0-"%string
  /\ encodeTimeStamp sampleEncodeTable 4095 = Some "zz"%string
  /\ string_lt "0-" "zz".
Proof.
  destruct (encode_order sampleEncodeTable 64 4095) as (sa & sb & Ha & Hb & H).
  - exact sample_table_increasing.
  - unfold uint64. lia.
  - unfold uint64. lia.
  - lia.
  - vm_compute in Ha, Hb. injection Ha as <-. injection Hb as <-.
    split; [reflexivity |]. split; [reflexivity |].
    apply H. reflexivity.
Defined.

(** C8. With a decode table that inverts the encode table and is
    negative outside the alphabet: a string with a character outside the
    alphabet is decoded to 0 by [decodeTimeStampWithCheck], and a string
    of symbols only is decoded as by [decodeTimeStamp]. *)
Theorem decodeTimeStampWithCheck_spec encodeTable decodeTable s :
  tables_inverse encodeTable decodeTable ->
  table_rejects encodeTable decodeTable ->
  ((exists c, In c (list_ascii_of_string s)
              /\ in_alphabet encodeTable c = false) ->
   decodeTimeStampWithCheck decodeTable s = 0)
  /\ ((forall c, In c (list_ascii_of_string s) ->
                 in_alphabet encodeTable c = true) ->
      decodeTimeStampWithCheck decodeTable s = decodeTimeStamp decodeTable s).
Proof.
  intros Hinv Hrej. split.
  - intros (c & Hin & Hout). apply decodeLoopWithCheck_invalid.
    exists c. split; [exact Hin | apply Hrej, Hout].
  - intros Hall. apply decodeLoopWithCheck_valid. intros c Hc.
    destruct (in_alphabet_symbol encodeTable c (Hall c Hc)) as (v & Hv & <-).
    rewrite Hinv by exact Hv. unfold sixbit in Hv. lia.
Qed.

Lemma decodeTimeStampWithCheck_spec_witness :
  decodeTimeStampWithCheck sampleDecodeTable "0z+1" = 0
  /\ decodeTimeStampWithCheck sampleDecodeTable "0z-1"
     = decodeTimeStamp sampleDecodeTable "0z-1".
Proof.
  split.
  - apply (proj1 (decodeTimeStampWithCheck_spec
                    sampleEncodeTable sampleDecodeTable "0z+1"
                    sample_tables_inverse sample_table_rejects)).
    exists "+"%char. split; [simpl; tauto | reflexivity].
  - apply (proj2 (decodeTimeStampWithCheck_spec
                    sampleEncodeTable sampleDecodeTable "0z-1"
                    sample_tables_inverse sample_table_rejects)).
    intros c Hc. simpl in Hc.
    destruct Hc as [<- | [<- | [<- | [<- | []]]]]; reflexivity.
Defined.

(** C9. The encoding of a 64-bit time stamp has at most 11 characters;
    its first character, if any, is the symbol of a 6-bit value from 1
    to 63 and, the symbols being distinct, not the symbol of 0; its
    length is the least number of 6-bit groups that hold the time
    stamp.  The encoding of 0 is the empty string, and the empty string
    decodes to 0. *)
Theorem encodeTimeStamp_minimal encodeTable decodeTable :
  table_injective encodeTable ->
  (forall t, uint64 t ->
     exists s,
       encodeTimeStamp encodeTable t = Some s
       /\ (String.length s <= 11)%nat
       /\ (forall c s', s = String c s' ->
             c <> encodeTable_at encodeTable 0
             /\ exists d, 1 <= d < 64 /\ c = encodeTable_at encodeTable d)
       /\ t < 64 ^ Z.of_nat (String.length s)
       /\ (0 < t -> 64 ^ (Z.of_nat (String.length s) - 1) <= t))
  /\ encodeTimeStamp encodeTable 0 = Some ""%string
  /\ decodeTimeStamp decodeTable ""%string = 0.
Proof.
  intros Hinj. split; [| split; reflexivity].
  intros t Ht. eexists. split; [apply encodeTimeStamp_digits, Ht |].
  unfold uint64 in Ht.
  assert (0 <= t < 64 ^ Z.of_nat 11) as Ht' by (simpl; lia).
  rewrite string_length_of_list, length_map.
  split; [apply digits_length |].
  split; [| apply digits_minimal, Ht'].
  intros c s' E.
  destruct (digits 11 t) as [| d ds] eqn:Ed; [discriminate |].
  simpl in E. injection E as <- _.
  pose proof (digits_head 11 t d ds Ht' Ed) as Hd.
  split; [| exists d; split; [exact Hd | reflexivity]].
  intros E0. apply Hinj in E0; unfold sixbit; lia.
Qed.

Lemma encodeTimeStamp_minimal_witness :
  exists s,
    encodeTimeStamp sampleEncodeTable 4096 = Some s
    /\ (String.length s <= 11)%nat
    /\ (forall c s', s = String c s' ->
          c <> encodeTable_at sampleEncodeTable 0
          /\ exists d, 1 <= d < 64 /\ c = encodeTable_at sampleEncodeTable d)
    /\ 4096 < 64 ^ Z.of_nat (String.length s)
    /\ (0 < 4096 -> 64 ^ (Z.of_nat (String.length s) - 1) <= 4096).
Proof.
  apply (proj1 (encodeTimeStamp_minimal sampleEncodeTable sampleDecodeTable
                  (table_increasing_injective _ sample_table_increasing))).
  unfold uint64. lia.
Defined.

End CodecFacts.

(** ** Issued time stamps and the value 0 *)

Module IssuedFacts.
Import HybridLogicalClock Bits ClockFacts CodecFacts.

Lemma count_succ_pos t : 0 < wrap64 (extractCount t + 1).
Proof.
  rewrite count_succ_nowrap. pose proof (extractCount_range t). lia.
Qed.

Lemma count_max_succ_pos a b :
  0 < wrap64 (Z.max (extractCount a) (extractCount b) + 1).
Proof.
  pose proof (extractCount_range a). pose proof (extractCount_range b).
  rewrite wrap64_small by lia. lia.
Qed.

Lemma assembleTimeStamp_pos time count :
  0 < count -> 0 < assembleTimeStamp time count.
Proof.
  intros H. unfold assembleTimeStamp. apply lor_pos.
  - apply wrap64_nonneg.
  - exact H.
Qed.

Lemma tickBody_pos ms old :
  uint64 old -> 0 <= ms < 2 ^ 44 -> 1 <= tickBody ms old.
Proof.
  intros Hold Hms. unfold tickBody.
  pose proof (extractTime_range old Hold) as Ht.
  destruct (Z.leb_spec ms (extractTime old)).
  - pose proof (assembleTimeStamp_pos (extractTime old) _ (count_succ_pos old)).
    lia.
  - rewrite assembleTimeStamp_add by lia. lia.
Qed.

Lemma mergeBody_pos received ms old :
  uint64 old -> 0 <= ms < 2 ^ 44 -> 1 <= mergeBody received ms old.
Proof.
  intros Hold Hms. unfold mergeBody.
  pose proof (extractTime_range old Hold) as Ht.
  set (newTime := Z.max (Z.max (extractTime old) ms) (extractTime received)).
  destruct (Z.eqb_spec newTime (extractTime old)) as [E1 | E1];
    destruct (Z.eqb_spec newTime (extractTime received)) as [E2 | E2].
  - pose proof (assembleTimeStamp_pos newTime _
                  (count_max_succ_pos (extractTime old)
                                      (extractTime received))). lia.
  - pose proof (assembleTimeStamp_pos newTime _
                  (count_succ_pos (extractTime old))). lia.
  - pose proof (assembleTimeStamp_pos newTime _
                  (count_succ_pos (extractTime received))). lia.
  - assert (newTime = ms /\ extractTime old < ms) as [-> Hlt]
      by (unfold newTime in *; lia).
    rewrite assembleTimeStamp_add by lia. lia.
Qed.

(** What the clock can deliver: a reading under 2^44, or, before the
    epoch of the clock, one of the last 2^44 values of 64 bits. *)
Lemma reading_cases ms :
  reading ms ->
  0 <= ms < 2 ^ 44 \/ exists k, 1 <= k < 2 ^ 44 /\ ms = 2 ^ 64 - k.
Proof.
  intros (now & Hnow & ->). unfold int64 in Hnow. unfold getPhysicalTime.
  destruct (Z.le_gt_cases 0 now) as [Hpos | Hneg].
  - left. rewrite Z.quot_div_nonneg by lia.
    assert (0 <= now / 1000000 < 2 ^ 44) as Hq.
    { split; [apply Z.div_pos; lia | apply Z.div_lt_upper_bound; lia]. }
    rewrite wrap64_small; lia.
  - replace now with (- (- now)) by lia.
    rewrite Z.quot_opp_l, Z.quot_div_nonneg by lia.
    assert (0 <= - now / 1000000 < 2 ^ 44) as Hq.
    { split; [apply Z.div_pos; lia | apply Z.div_lt_upper_bound; lia]. }
    destruct (Z.eq_dec (- now / 1000000) 0) as [-> | Hne].
    + left. vm_compute. split; [discriminate | reflexivity].
    + right. exists (- now / 1000000). split; [lia |].
      unfold wrap64. symmetry. apply (Z.mod_unique _ _ (-1)); lia.
Qed.

Lemma assembleTimeStamp_reading_pos ms :
  reading ms -> 0 < ms -> 1 <= assembleTimeStamp ms 0.
Proof.
  intros Hr Hpos.
  destruct (reading_cases ms Hr) as [Hsmall | (k & Hk & ->)].
  - rewrite assembleTimeStamp_add by lia. lia.
  - unfold assembleTimeStamp. rewrite Z.lor_0_r, Z.shiftl_mul_pow2 by lia.
    unfold wrap64.
    rewrite <- (Z.mod_unique ((2 ^ 64 - k) * 2 ^ 20) (2 ^ 64) (2 ^ 20 - 1)
                  (2 ^ 64 - k * 2 ^ 20)); lia.
Qed.

Lemma tickBody_reading_pos ms old :
  uint64 old -> reading ms -> 1 <= tickBody ms old.
Proof.
  intros Hold Hr. unfold tickBody.
  pose proof (extractTime_range old Hold) as Ht.
  destruct (Z.leb_spec ms (extractTime old)).
  - pose proof (assembleTimeStamp_pos (extractTime old) _ (count_succ_pos old)).
    lia.
  - apply assembleTimeStamp_reading_pos; [exact Hr | lia].
Qed.

Lemma mergeBody_reading_pos received ms old :
  uint64 old -> reading ms -> 1 <= mergeBody received ms old.
Proof.
  intros Hold Hr. unfold mergeBody.
  pose proof (extractTime_range old Hold) as Ht.
  set (newTime := Z.max (Z.max (extractTime old) ms) (extractTime received)).
  destruct (Z.eqb_spec newTime (extractTime old)) as [E1 | E1];
    destruct (Z.eqb_spec newTime (extractTime received)) as [E2 | E2].
  - pose proof (assembleTimeStamp_pos newTime _
                  (count_max_succ_pos (extractTime old)
                                      (extractTime received))). lia.
  - pose proof (assembleTimeStamp_pos newTime _
                  (count_succ_pos (extractTime old))). lia.
  - pose proof (assembleTimeStamp_pos newTime _
                  (count_succ_pos (extractTime received))). lia.
  - assert (newTime = ms /\ extractTime old < ms) as [-> Hlt]
      by (unfold newTime in *; lia).
    apply assembleTimeStamp_reading_pos; [exact Hr | lia].
Qed.

(** C10. [getTimeStamp()] and [getTimeStamp(received)] never return 0:
    for every 64-bit value loaded, every reading the physical clock can
    deliver (times before its epoch included) and every received value,
    the value returned is at least 1; so the 0 that
    [decodeTimeStampWithCheck] answers to a rejected string is never a
    time stamp they issued. *)
Theorem issued_timestamp_nonzero env last old now received :
  int64 now -> uint64 old ->
  success env last old (getPhysicalTime now) ->
  (exists ts,
      getTimeStamp env last = Some (ts, ts) /\ 1 <= ts
      /\ forall decodeTable s,
           rejected decodeTable s ->
           decodeTimeStampWithCheck decodeTable s <> ts)
  /\ (exists ts,
        getTimeStampReceived received env last = Some (ts, ts) /\ 1 <= ts
        /\ forall decodeTable s,
             rejected decodeTable s ->
             decodeTimeStampWithCheck decodeTable s <> ts).
Proof.
  intros Hnow Hold Hs.
  assert (reading (getPhysicalTime now)) as Hr
    by (exists now; split; [exact Hnow | reflexivity]).
  set (ms := getPhysicalTime now) in *. split.
  - exists (tickBody ms old).
    pose proof (tickBody_reading_pos ms old Hold Hr) as Hpos.
    split; [apply cas_loop_success, Hs |]. split; [exact Hpos |].
    intros decodeTable s Hrej. unfold decodeTimeStampWithCheck.
    rewrite decodeLoopWithCheck_invalid by exact Hrej. lia.
  - exists (mergeBody received ms old).
    pose proof (mergeBody_reading_pos received ms old Hold Hr) as Hpos.
    split; [apply cas_loop_success, Hs |]. split; [exact Hpos |].
    intros decodeTable s Hrej. unfold decodeTimeStampWithCheck.
    rewrite decodeLoopWithCheck_invalid by exact Hrej. lia.
Qed.

Lemma issued_timestamp_nonzero_witness :
  (exists ts,
      getTimeStamp [quiet (getPhysicalTime (-5000000))] 0 = Some (ts, ts)
      /\ 1 <= ts
      /\ forall decodeTable s,
           rejected decodeTable s ->
           decodeTimeStampWithCheck decodeTable s <> ts)
  /\ (exists ts,
        getTimeStampReceived 7 [quiet (getPhysicalTime (-5000000))] 0
        = Some (ts, ts)
        /\ 1 <= ts
        /\ forall decodeTable s,
             rejected decodeTable s ->
             decodeTimeStampWithCheck decodeTable s <> ts).
Proof.
  apply (issued_timestamp_nonzero
           [quiet (getPhysicalTime (-5000000))] 0 0 (-5000000) 7).
  - unfold int64. lia.
  - unfold uint64. lia.
  - apply success_quiet.
Defined.

End IssuedFacts.

(** ** Further properties of the clock *)

Module ClockExtras.
Import HybridLogicalClock Bits ClockFacts.

Lemma fields_of_sum time count :
  0 <= count < 2 ^ 20 ->
  (time * 2 ^ 20 + count) / 2 ^ 20 = time
  /\ (time * 2 ^ 20 + count) mod 2 ^ 20 = count.
Proof.
  intros Hc. split.
  - symmetry. apply (Z.div_unique _ _ _ count); lia.
  - symmetry. apply (Z.mod_unique _ _ time); lia.
Qed.

Lemma uint64_fields t :
  uint64 t ->
  t = extractTime t * 2 ^ 20 + extractCount t
  /\ 0 <= extractTime t < 2 ^ 44 /\ 0 <= extractCount t < 2 ^ 20.
Proof.
  intros H. repeat split; try apply extractTime_range;
    try apply extractCount_range; try assumption.
  rewrite <- (assemble_extract t H) at 1.
  apply assembleTimeStamp_add;
    auto using extractTime_range, extractCount_range.
Qed.

Lemma lor_one t : Z.lor t 1 = t + 1 - t mod 2.
Proof.
  pose proof (Z.add_lor_land t 1) as H.
  change 1 with (Z.ones 1) in H at 2.
  rewrite Z.land_ones in H by lia. change (2 ^ 1) with 2 in H. lia.
Qed.

(** A count of 2^20 is or-ed into the lowest bit of the time. *)
Lemma assembleTimeStamp_carry time :
  0 <= time < 2 ^ 44 ->
  assembleTimeStamp time (2 ^ 20) = (time + 1 - time mod 2) * 2 ^ 20.
Proof.
  intros Ht. unfold assembleTimeStamp.
  rewrite wrap64_small by (rewrite Z.shiftl_mul_pow2; lia).
  change (2 ^ 20) with (Z.shiftl 1 20) at 1.
  rewrite <- Z.shiftl_lor, Z.shiftl_mul_pow2, lor_one by lia. reflexivity.
Qed.

(** Whatever count up to 2^20 is packed, the result is a 64-bit value
    whose time is the packed time or the next one. *)
Lemma assembleTimeStamp_time time count :
  0 <= time < 2 ^ 44 -> 0 <= count <= 2 ^ 20 ->
  uint64 (assembleTimeStamp time count)
  /\ time <= extractTime (assembleTimeStamp time count) <= time + 1.
Proof.
  intros Ht Hc. unfold uint64. rewrite extractTime_div.
  destruct (Z.eq_dec count (2 ^ 20)) as [-> | Hne].
  - rewrite assembleTimeStamp_carry by exact Ht.
    pose proof (Z.mod_pos_bound time 2).
    assert (time + 1 - time mod 2 < 2 ^ 44).
    { destruct (Z.eq_dec (time mod 2) 0) as [E | E]; [| lia].
      assert (time <> 2 ^ 44 - 1) by (intros ->; discriminate E). lia. }
    rewrite Z.div_mul by lia. lia.
  - rewrite assembleTimeStamp_add by lia.
    destruct (fields_of_sum time count) as [-> _]; lia.
Qed.

Lemma lt_by_time a b :
  uint64 a -> uint64 b -> extractTime a < extractTime b -> a < b.
Proof.
  intros Ha Hb Hlt.
  destruct (uint64_fields a Ha) as (Ea & _ & Hca).
  destruct (uint64_fields b Hb) as (Eb & _ & Hcb). lia.
Qed.

(** The value [getTimeStamp()] computes, below the limits of the fields. *)
Lemma tickBody_sum ms old :
  uint64 old -> 0 <= ms < 2 ^ 44 -> extractCount old + 1 < 2 ^ 20 ->
  tickBody ms old
  = Z.max (extractTime old) ms * 2 ^ 20
    + (if ms <=? extractTime old then extractCount old + 1 else 0).
Proof.
  intros Hold Hms Hc. unfold tickBody.
  destruct (uint64_fields old Hold) as (_ & Ht & Hr).
  rewrite count_succ_nowrap.
  destruct (Z.leb_spec ms (extractTime old)).
  - rewrite assembleTimeStamp_add by lia. f_equal. f_equal. lia.
  - rewrite assembleTimeStamp_add by lia. f_equal. f_equal. lia.
Qed.

(** The count [getTimeStamp(received)] computes is at most 2^20. *)
Lemma mergeBody_assemble received ms old :
  exists newCount,
    0 <= newCount <= 2 ^ 20
    /\ mergeBody received ms old
       = assembleTimeStamp
           (Z.max (Z.max (extractTime old) ms) (extractTime received))
           newCount.
Proof.
  unfold mergeBody.
  set (newTime := Z.max (Z.max (extractTime old) ms) (extractTime received)).
  pose proof (extractCount_range (extractTime old)) as Ho.
  pose proof (extractCount_range (extractTime received)) as Hr.
  destruct (newTime =? extractTime old);
    destruct (newTime =? extractTime received);
    eexists; (split; [| reflexivity]);
    rewrite ?wrap64_small by lia; lia.
Qed.


(** X1. Packing a 44-bit time and a 20-bit count gives a 64-bit value
    from which both are extracted again, and every 64-bit value is the
    packing of its time and count. *)
Theorem assemble_extract_inverse :
  (forall time count,
      0 <= time < 2 ^ 44 -> 0 <= count < 2 ^ 20 ->
      uint64 (assembleTimeStamp time count)
      /\ extractTime (assembleTimeStamp time count) = time
      /\ extractCount (assembleTimeStamp time count) = count)
  /\ (forall t,
        uint64 t ->
        assembleTimeStamp (extractTime t) (extractCount t) = t
        /\ 0 <= extractTime t < 2 ^ 44 /\ 0 <= extractCount t < 2 ^ 20).
Proof.
  split.
  - intros time count Ht Hc.
    rewrite extractTime_div, extractCount_mod.
    rewrite assembleTimeStamp_add by assumption.
    destruct (fields_of_sum time count Hc) as [-> ->].
    unfold uint64. repeat split; lia.
  - intros t Ht. destruct (uint64_fields t Ht) as (_ & H1 & H2).
    split; [apply assemble_extract, Ht | split; assumption].
Qed.

Lemma assemble_extract_inverse_witness :
  uint64 (assembleTimeStamp 1000000 3)
  /\ extractTime (assembleTimeStamp 1000000 3) = 1000000
  /\ extractCount (assembleTimeStamp 1000000 3) = 3.
Proof. apply (proj1 assemble_extract_inverse 1000000 3); lia. Defined.

(** X2. 64-bit time stamps compare as their (time, count) pairs: first
    by the time, and for equal times by the count. *)
Theorem timestamp_order a b :
  uint64 a -> uint64 b ->
  (a < b <->
   extractTime a < extractTime b
   \/ (extractTime a = extractTime b /\ extractCount a < extractCount b)).
Proof.
  intros Ha Hb.
  destruct (uint64_fields a Ha) as (Ea & _ & Hca).
  destruct (uint64_fields b Hb) as (Eb & _ & Hcb).
  split; [intros H | intros [H | [H1 H2]]]; lia.
Qed.

Lemma timestamp_order_witness :
  1048576000003 < 1048576000004 <->
  extractTime 1048576000003 < extractTime 1048576000004
  \/ (extractTime 1048576000003 = extractTime 1048576000004
      /\ extractCount 1048576000003 < extractCount 1048576000004).
Proof. apply timestamp_order; unfold uint64; lia. Defined.

(** X3. Below the limits of the fields (reading under 2^44, count of
    the loaded value under 2^20 - 1), [getTimeStamp()] returns a 64-bit
    value above the loaded one whose time is the larger of the loaded
    time and the clock reading; its count is the loaded count plus one
    when the reading is not ahead, and 0 when it is. *)
Theorem getTimeStamp_advances env last old ms :
  success env last old ms ->
  uint64 old -> 0 <= ms < 2 ^ 44 -> extractCount old + 1 < 2 ^ 20 ->
  exists ts,
    getTimeStamp env last = Some (ts, ts)
    /\ uint64 ts /\ old < ts
    /\ extractTime ts = Z.max (extractTime old) ms
    /\ extractCount ts
       = if ms <=? extractTime old then extractCount old + 1 else 0.
Proof.
  intros Hs Hold Hms Hc. exists (tickBody ms old).
  split; [apply cas_loop_success, Hs |].
  pose proof (tickBody_increases ms old Hold Hms Hc) as Hinc.
  destruct (uint64_fields old Hold) as (_ & Ht & Hr).
  rewrite extractTime_div, extractCount_mod.
  rewrite tickBody_sum in * by assumption.
  set (count := if ms <=? extractTime old then extractCount old + 1 else 0)
    in *.
  assert (0 <= count < 2 ^ 20) as Hcount
    by (subst count; destruct (ms <=? extractTime old); lia).
  destruct (fields_of_sum (Z.max (extractTime old) ms) count Hcount)
    as [-> ->].
  unfold uint64. repeat split; lia.
Qed.

Lemma getTimeStamp_advances_witness :
  exists ts,
    getTimeStamp [Attempt 7 None true; quiet 1000000] 1048576000003
    = Some (ts, ts)
    /\ uint64 ts /\ 1048576000003 < ts
    /\ extractTime ts = Z.max (extractTime 1048576000003) 1000000
    /\ extractCount ts
       = if 1000000 <=? extractTime 1048576000003
         then extractCount 1048576000003 + 1 else 0.
Proof.
  apply getTimeStamp_advances.
  - apply success_retry; [reflexivity |].
    apply (success_now (quiet 1000000)). reflexivity.
  - unfold uint64. lia.
  - lia.
  - vm_compute. reflexivity.
Defined.

(** X4. When the loaded count is 2^20 - 1 and the clock reading is not
    ahead, the incremented count 2^20 is or-ed into the lowest bit of
    the time: over an even time [getTimeStamp()] returns the loaded value
    plus one (the next time, count 0); over an odd time it returns the
    loaded time with count 0, which is below the loaded value. *)
Theorem getTimeStamp_count_overflow env last old ms :
  success env last old ms ->
  uint64 old -> ms <= extractTime old -> extractCount old = 2 ^ 20 - 1 ->
  exists ts,
    getTimeStamp env last = Some (ts, ts)
    /\ (Z.even (extractTime old) = true -> ts = old + 1)
    /\ (Z.even (extractTime old) = false ->
        ts = extractTime old * 2 ^ 20 /\ ts < old).
Proof.
  intros Hs Hold Hms Hc. exists (tickBody ms old).
  split; [apply cas_loop_success, Hs |].
  destruct (uint64_fields old Hold) as (Eold & Ht & _).
  unfold tickBody. rewrite count_succ_nowrap, Hc.
  destruct (Z.leb_spec ms (extractTime old)); [| lia].
  replace (2 ^ 20 - 1 + 1) with (2 ^ 20) by lia.
  rewrite assembleTimeStamp_carry by exact Ht.
  rewrite Zdiv.Zeven_mod. split.
  - intros He. apply Z.eqb_eq in He. rewrite He. lia.
  - intros He. apply Z.eqb_neq in He.
    pose proof (Z.mod_pos_bound (extractTime old) 2).
    replace (extractTime old mod 2) with 1 by lia. lia.
Qed.

Lemma getTimeStamp_count_overflow_witness :
  exists ts,
    getTimeStamp [quiet 1000001] (1000001 * 2 ^ 20 + (2 ^ 20 - 1))
    = Some (ts, ts)
    /\ (Z.even (extractTime (1000001 * 2 ^ 20 + (2 ^ 20 - 1))) = true ->
        ts = 1000001 * 2 ^ 20 + (2 ^ 20 - 1) + 1)
    /\ (Z.even (extractTime (1000001 * 2 ^ 20 + (2 ^ 20 - 1))) = false ->
        ts = extractTime (1000001 * 2 ^ 20 + (2 ^ 20 - 1)) * 2 ^ 20
        /\ ts < 1000001 * 2 ^ 20 + (2 ^ 20 - 1)).
Proof.
  apply (getTimeStamp_count_overflow
           [quiet 1000001] _ (1000001 * 2 ^ 20 + (2 ^ 20 - 1)) 1000001).
  - apply (success_now (quiet 1000001)). reflexivity.
  - unfold uint64. lia.
  - vm_compute. discriminate.
  - vm_compute. reflexivity.
Defined.

Lemma run_tick_quiet ms readings last :
  run (ticks (ms :: readings)) last
  = match run (ticks readings) (tickBody ms last) with
    | Some (tss, m) => Some (tickBody ms last :: tss, m)
    | None => None
    end.
Proof.
  unfold ticks. cbn [map run perform]. unfold getTimeStamp.
  rewrite (cas_loop_success _ _ _ _ _ (success_quiet ms [] last)).
  reflexivity.
Qed.

(** X5. A series of [getTimeStamp()] calls by one thread, readings under
    2^44 and few enough calls for the count to stay under 2^20, returns
    strictly increasing values, all above the value stored before. *)
Theorem ticks_increasing readings : forall last,
  uint64 last ->
  Forall (fun ms => 0 <= ms < 2 ^ 44) readings ->
  extractCount last + Z.of_nat (length readings) < 2 ^ 20 ->
  exists tss m,
    run (ticks readings) last = Some (tss, m)
    /\ length tss = length readings
    /\ increasing tss
    /\ Forall (fun ts => last < ts) tss.
Proof.
  induction readings as [| ms readings IH]; intros last Hlast Hall Hc.
  - exists [], last. repeat split; constructor.
  - apply Forall_cons in Hall as [Hms Hall].
    simpl length in Hc. rewrite Nat2Z.inj_succ in Hc.
    assert (extractCount last + 1 < 2 ^ 20) as Hc1 by lia.
    pose proof (tickBody_increases ms last Hlast Hms Hc1) as Hinc.
    pose proof (tickBody_sum ms last Hlast Hms Hc1) as Esum.
    destruct (uint64_fields last Hlast) as (_ & Ht & Hr).
    set (count := if ms <=? extractTime last
                  then extractCount last + 1 else 0) in *.
    assert (0 <= count <= extractCount last + 1) as Hcount
      by (subst count; destruct (ms <=? extractTime last); lia).
    assert (uint64 (tickBody ms last)) as Hnext
      by (rewrite Esum; unfold uint64; lia).
    assert (extractCount (tickBody ms last) = count) as Ecount.
    { rewrite extractCount_mod, Esum.
      apply (fields_of_sum (Z.max (extractTime last) ms) count). lia. }
    destruct (IH (tickBody ms last) Hnext Hall) as (tss & m & Hrun & Hlen & Hincr & Habove);
      [lia |].
    exists (tickBody ms last :: tss), m.
    rewrite run_tick_quiet, Hrun. repeat split.
    + simpl. rewrite Hlen. reflexivity.
    + destruct tss as [| y tss']; [exact I |].
      apply Forall_cons in Habove as [Hy _]. exact Hy.
    + exact Hincr.
    + constructor; [exact Hinc |].
      eapply Forall_impl; [exact Habove |]. simpl. intros ts Hts. lia.
Qed.

Lemma ticks_increasing_witness :
  exists tss m,
    run (ticks [1000000; 999999; 1000002]) 0 = Some (tss, m)
    /\ length tss = length [1000000; 999999; 1000002]
    /\ increasing tss
    /\ Forall (fun ts => 0 < ts) tss.
Proof.
  apply ticks_increasing.
  - unfold uint64. lia.
  - repeat constructor; lia.
  - vm_compute. reflexivity.
Defined.



(** X7. With a clock reading under 2^44, both functions return a 64-bit
    value whose time is not below the loaded time, the clock reading
    and, for the merge, the received time: it is the largest of them or
    the next millisecond. *)
Theorem time_never_behind env last old ms received :
  success env last old ms ->
  uint64 old -> uint64 received -> 0 <= ms < 2 ^ 44 ->
  (exists ts,
      getTimeStamp env last = Some (ts, ts) /\ uint64 ts
      /\ Z.max (extractTime old) ms <= extractTime ts
         <= Z.max (extractTime old) ms + 1)
  /\ (exists ts,
        getTimeStampReceived received env last = Some (ts, ts) /\ uint64 ts
        /\ Z.max (Z.max (extractTime old) ms) (extractTime received)
           <= extractTime ts
           <= Z.max (Z.max (extractTime old) ms) (extractTime received) + 1).
Proof.
  intros Hs Hold Hrec Hms.
  destruct (uint64_fields old Hold) as (_ & Ht & _).
  destruct (uint64_fields received Hrec) as (_ & Htr & _).
  split.
  - exists (tickBody ms old). split; [apply cas_loop_success, Hs |].
    unfold tickBody. rewrite count_succ_nowrap.
    pose proof (extractCount_range old) as Hr.
    destruct (Z.leb_spec ms (extractTime old)).
    + replace (Z.max (extractTime old) ms) with (extractTime old) by lia.
      apply assembleTimeStamp_time; lia.
    + replace (Z.max (extractTime old) ms) with ms by lia.
      apply assembleTimeStamp_time; lia.
  - exists (mergeBody received ms old).
    split; [apply cas_loop_success, Hs |].
    destruct (mergeBody_assemble received ms old) as (c & Hc & ->).
    apply assembleTimeStamp_time; lia.
Qed.

Lemma time_never_behind_witness :
  (exists ts,
      getTimeStamp [quiet 1500000] 1048576000003 = Some (ts, ts) /\ uint64 ts
      /\ Z.max (extractTime 1048576000003) 1500000 <= extractTime ts
         <= Z.max (extractTime 1048576000003) 1500000 + 1)
  /\ (exists ts,
        getTimeStampReceived 2097152000005 [quiet 1500000] 1048576000003
        = Some (ts, ts) /\ uint64 ts
        /\ Z.max (Z.max (extractTime 1048576000003) 1500000)
                 (extractTime 2097152000005)
           <= extractTime ts
           <= Z.max (Z.max (extractTime 1048576000003) 1500000)
                    (extractTime 2097152000005) + 1).
Proof.
  apply (time_never_behind [quiet 1500000] _ 1048576000003 1500000).
  - apply (success_now (quiet 1500000)). reflexivity.
  - unfold uint64. lia.
  - unfold uint64. lia.
  - lia.
Defined.

(** X8. With a clock reading under 2^44, [getTimeStamp(received)]
    returns a value above the loaded one whenever the reading or the
    received time is ahead of the loaded time, and a value above the
    received one whenever the reading or the loaded time is ahead of the
    received time. *)
Theorem getTimeStampReceived_dominates_on_advance env last old ms received :
  success env last old ms ->
  uint64 old -> uint64 received -> 0 <= ms < 2 ^ 44 ->
  exists ts,
    getTimeStampReceived received env last = Some (ts, ts)
    /\ (extractTime old < Z.max ms (extractTime received) -> old < ts)
    /\ (extractTime received < Z.max ms (extractTime old) -> received < ts).
Proof.
  intros Hs Hold Hrec Hms.
  destruct (uint64_fields old Hold) as (_ & Ht & _).
  destruct (uint64_fields received Hrec) as (_ & Htr & _).
  exists (mergeBody received ms old).
  split; [apply cas_loop_success, Hs |].
  destruct (mergeBody_assemble received ms old) as (c & Hc & ->).
  set (newTime := Z.max (Z.max (extractTime old) ms) (extractTime received)).
  destruct (assembleTimeStamp_time newTime c) as (Hu & Hlo & _);
    [unfold newTime; lia | lia |].
  split; intros Hadv; apply lt_by_time; try assumption;
    unfold newTime in *; lia.
Qed.

Lemma getTimeStampReceived_dominates_on_advance_witness :
  exists ts,
    getTimeStampReceived 2097152000005 [quiet 1500000] 1048576000003
    = Some (ts, ts)
    /\ (extractTime 1048576000003 < Z.max 1500000 (extractTime 2097152000005)
        -> 1048576000003 < ts)
    /\ (extractTime 2097152000005 < Z.max 1500000 (extractTime 1048576000003)
        -> 2097152000005 < ts).
Proof.
  apply (getTimeStampReceived_dominates_on_advance
           [quiet 1500000] _ 1048576000003 1500000).
  - apply (success_now (quiet 1500000)). reflexivity.
  - unfold uint64. lia.
  - unfold uint64. lia.
  - lia.
Defined.

(** X9. When the clock reading (under 2^44) is ahead of both the loaded
    and the received time, [getTimeStamp(received)] returns what
    [getTimeStamp()] returns: the reading as time, with count 0. *)
Theorem reading_ahead_resets_count env last old ms received :
  success env last old ms ->
  0 <= ms < 2 ^ 44 -> extractTime old < ms -> extractTime received < ms ->
  getTimeStamp env last = Some (ms * 2 ^ 20, ms * 2 ^ 20)
  /\ getTimeStampReceived received env last = getTimeStamp env last
  /\ extractTime (ms * 2 ^ 20) = ms
  /\ extractCount (ms * 2 ^ 20) = 0.
Proof.
  intros Hs Hms Hold Hrec.
  assert (tickBody ms old = ms * 2 ^ 20) as Etick.
  { unfold tickBody. destruct (Z.leb_spec ms (extractTime old)); [lia |].
    rewrite assembleTimeStamp_add by lia. lia. }
  assert (mergeBody received ms old = ms * 2 ^ 20) as Emerge.
  { destruct (mergeBody_physical_ahead received ms old Hold Hrec) as [_ ->].
    rewrite assembleTimeStamp_add by lia. lia. }
  unfold getTimeStamp, getTimeStampReceived.
  rewrite !(cas_loop_success _ _ _ _ _ Hs), Etick, Emerge.
  rewrite extractTime_div, extractCount_mod.
  pose proof (fields_of_sum ms 0 ltac:(lia)) as [E1 E2].
  rewrite Z.add_0_r in E1, E2. repeat split; assumption.
Qed.

Lemma reading_ahead_resets_count_witness :
  getTimeStamp [quiet 1500000] 1048576000003
  = Some (1500000 * 2 ^ 20, 1500000 * 2 ^ 20)
  /\ getTimeStampReceived 1048576000009 [quiet 1500000] 1048576000003
     = getTimeStamp [quiet 1500000] 1048576000003
  /\ extractTime (1500000 * 2 ^ 20) = 1500000
  /\ extractCount (1500000 * 2 ^ 20) = 0.
Proof.
  apply (reading_ahead_resets_count [quiet 1500000] _ 1048576000003).
  - apply (success_now (quiet 1500000)). reflexivity.
  - lia.
  - vm_compute. reflexivity.
  - vm_compute. reflexivity.
Defined.

End ClockExtras.

(** ** Further properties of the codec *)

Module CodecExtras.
Import HybridLogicalClock Bits CodecFacts.

Lemma value_app ds1 ds2 :
  value (ds1 ++ ds2) = value ds1 * 64 ^ Z.of_nat (length ds2) + value ds2.
Proof.
  induction ds1 as [| d ds1 IH]; simpl.
  - lia.
  - rewrite IH, length_app, Nat2Z.inj_add, Z.pow_add_r by lia. lia.
Qed.

Lemma digits_zero n : digits n 0 = [].
Proof. destruct n; reflexivity. Qed.

Lemma value_pos ds : Forall sixbit ds -> hd 1 ds <> 0 -> ds <> [] -> 0 < value ds.
Proof.
  intros Hall Hhd Hne. destruct ds as [| d ds]; [contradiction |].
  apply Forall_cons in Hall as [Hd Hds]. simpl in *.
  pose proof (value_bounds ds Hds). pose proof (pow64_pos (length ds)).
  unfold sixbit in Hd. nia.
Qed.

(** The groups of the value of a list without leading zero are that
    list. *)
Lemma digits_of_value ds : forall n,
  Forall sixbit ds -> hd 1 ds <> 0 -> (length ds <= n)%nat ->
  digits n (value ds) = ds.
Proof.
  induction ds as [| d ds IH] using rev_ind; intros n Hall Hhd Hlen.
  - apply digits_zero.
  - apply Forall_app in Hall as [Hds Hd].
    apply Forall_cons in Hd as [Hd _]. unfold sixbit in Hd.
    rewrite length_app in Hlen. simpl in Hlen.
    destruct n as [| n]; [lia |].
    assert (0 < value (ds ++ [d])) as Hpos.
    { apply value_pos; [| exact Hhd | destruct ds; discriminate].
      apply Forall_app. split; [exact Hds |]. constructor; [exact Hd |].
      constructor. }
    rewrite value_snoc in *. simpl digits.
    destruct (Z.ltb_spec 0 (value ds * 64 + d)); [| lia].
    rewrite shiftr_6, land_0x3f.
    replace ((value ds * 64 + d) / 64) with (value ds)
      by (apply (Z.div_unique _ _ _ d); lia).
    replace ((value ds * 64 + d) mod 64) with d
      by (apply (Z.mod_unique _ _ (value ds)); lia).
    destruct ds as [| d0 ds'].
    + simpl. rewrite digits_zero. reflexivity.
    + rewrite IH; [reflexivity | exact Hds | exact Hhd | lia].
Qed.

Lemma canonical_length ds : canonical ds -> (length ds <= 11)%nat.
Proof.
  intros (Hall & Hhd & Hval).
  destruct ds as [| d ds]; [simpl; lia |].
  apply Forall_cons in Hall as [Hd Hds]. simpl in *.
  pose proof (value_bounds ds Hds) as Hb. unfold sixbit in Hd.
  destruct (Nat.le_gt_cases (length ds) 10) as [Hle | Hgt]; [lia |].
  assert (64 ^ 11 <= 64 ^ Z.of_nat (length ds))
    by (apply Z.pow_le_mono_r; lia).
  nia.
Qed.

Lemma symbols_inj encodeTable ds1 : forall ds2,
  table_injective encodeTable ->
  Forall sixbit ds1 -> Forall sixbit ds2 ->
  symbols encodeTable ds1 = symbols encodeTable ds2 -> ds1 = ds2.
Proof.
  unfold symbols.
  induction ds1 as [| d1 ds1 IH]; intros [| d2 ds2] Hinj H1 H2 E;
    simpl in E; try discriminate; [reflexivity |].
  apply Forall_cons in H1 as [Hd1 Hds1].
  apply Forall_cons in H2 as [Hd2 Hds2].
  injection E as Ed Es. f_equal.
  - apply Hinj; assumption.
  - apply IH; assumption.
Qed.

Lemma string_compare_refl s : String.compare s s = Eq.
Proof.
  induction s as [| c s IH]; simpl; [reflexivity |].
  rewrite ascii_compare_refl. exact IH.
Qed.

Section Wrap.

Variable encodeTable : list ascii.
Variable decodeTable : list Z.
Hypothesis Hinv : tables_inverse encodeTable decodeTable.

Local Abbreviation symbol := (encodeTable_at encodeTable).

(** One step of the decoder, with the bits shifted out of the 64. *)
Lemma decodeStep_wrap r d :
  sixbit d -> decodeStep decodeTable r (symbol d) = wrap64 (r * 64 + d).
Proof.
  unfold sixbit. intros Hd. unfold decodeStep.
  rewrite Hinv by exact Hd.
  unfold to_uint8. rewrite (Z.mod_small d 256) by lia.
  assert (wrap64 (Z.shiftl r 6) = Z.shiftl (r mod 2 ^ 58) 6) as ->.
  { unfold wrap64. rewrite !Z.shiftl_mul_pow2 by lia.
    change (2 ^ 64) with (2 ^ 58 * 2 ^ 6).
    apply Z.mul_mod_distr_r; lia. }
  pose proof (Z.mod_pos_bound r (2 ^ 58)).
  rewrite (lor_shiftl_add (r mod 2 ^ 58) d 6) by lia.
  unfold wrap64. apply (Z.mod_unique _ _ (r / 2 ^ 58)); [lia |].
  pose proof (Z.div_mod r (2 ^ 58)). lia.
Qed.

Lemma decodeLoop_wrap ds : forall r,
  uint64 r -> Forall sixbit ds ->
  decodeLoop decodeTable (symbols encodeTable ds) r
  = wrap64 (r * 64 ^ Z.of_nat (length ds) + value ds).
Proof.
  unfold symbols.
  induction ds as [| d ds IH]; intros r Hr Hall.
  - simpl. rewrite Z.mul_1_r, Z.add_0_r, wrap64_small; [reflexivity | exact Hr].
  - apply Forall_cons in Hall as [Hd Hds].
    simpl map. simpl string_of_list_ascii. simpl decodeLoop.
    rewrite decodeStep_wrap by exact Hd.
    rewrite IH; [| apply Z.mod_pos_bound; lia | exact Hds].
    simpl length. simpl value. rewrite pow64_succ.
    unfold wrap64.
    rewrite <- Z.add_mod_idemp_l, Z.mul_mod_idemp_l, Z.add_mod_idemp_l by lia.
    f_equal. lia.
Qed.

End Wrap.

(** X10. With a decode table that inverts the encode table, the checked
    decoder accepts the encoding of every 64-bit time stamp and gives
    the time stamp back. *)
Theorem decodeTimeStampWithCheck_encode encodeTable decodeTable t :
  tables_inverse encodeTable decodeTable -> uint64 t ->
  exists s, encodeTimeStamp encodeTable t = Some s
            /\ decodeTimeStampWithCheck decodeTable s = t.
Proof.
  intros Hinv Ht. eexists. split; [apply encodeTimeStamp_digits, Ht |].
  unfold decodeTimeStampWithCheck, uint64 in *.
  assert (0 <= t < 64 ^ Z.of_nat 11) as Ht' by (simpl; lia).
  pose proof (digits_sixbit 11 t) as Hall.
  rewrite decodeLoopWithCheck_valid.
  - rewrite (decodeLoop_symbols encodeTable decodeTable Hinv);
      rewrite ?(digits_value 11 t Ht'); try assumption; lia.
  - intros c Hc. rewrite list_ascii_of_string_of_list_ascii in Hc.
    apply in_map_iff in Hc as (d & <- & Hd).
    rewrite Forall_forall in Hall.
    assert (sixbit d) as Hsix by (apply Hall, list_elem_of_In, Hd).
    rewrite Hinv by exact Hsix. unfold sixbit in Hsix. lia.
Qed.

Lemma decodeTimeStampWithCheck_encode_witness :
  exists s, encodeTimeStamp sampleEncodeTable 1048576000001 = Some s
            /\ decodeTimeStampWithCheck sampleDecodeTable s = 1048576000001.
Proof.
  apply decodeTimeStampWithCheck_encode.
  - exact sample_tables_inverse.
  - unfold uint64. lia.
Defined.

(** X11. With distinct symbols, different 64-bit time stamps have
    different encodings. *)
Theorem encodeTimeStamp_injective encodeTable a b :
  table_injective encodeTable -> uint64 a -> uint64 b -> a <> b ->
  encodeTimeStamp encodeTable a <> encodeTimeStamp encodeTable b.
Proof.
  intros Hinj Ha Hb Hne E. apply Hne.
  rewrite !encodeTimeStamp_digits in E by assumption.
  apply (inj Some) in E.
  change (symbols encodeTable (digits 11 a)
          = symbols encodeTable (digits 11 b)) in E.
  unfold uint64 in *.
  assert (0 <= a < 64 ^ Z.of_nat 11) as Ha' by (simpl; lia).
  assert (0 <= b < 64 ^ Z.of_nat 11) as Hb' by (simpl; lia).
  apply (symbols_inj encodeTable) in E;
    [| exact Hinj | apply digits_sixbit | apply digits_sixbit].
  rewrite <- (digits_value 11 a Ha'), <- (digits_value 11 b Hb'), E.
  reflexivity.
Qed.

Lemma encodeTimeStamp_injective_witness :
  encodeTimeStamp sampleEncodeTable 64 <> encodeTimeStamp sampleEncodeTable 4096.
Proof.
  apply encodeTimeStamp_injective.
  - exact (table_increasing_injective _ sample_table_increasing).
  - unfold uint64. lia.
  - unfold uint64. lia.
  - lia.
Defined.

(** X12. A string of symbols of 6-bit values whose first value is not 0
    and whose value fits 64 bits is the encoding of the number it
    decodes to: it has at most 11 characters, and encoding what
    [decodeTimeStamp] returns for it gives the string back. *)
Theorem encode_decode_canonical encodeTable decodeTable ds :
  tables_inverse encodeTable decodeTable -> canonical ds ->
  let s := symbols encodeTable ds in
  (String.length s <= 11)%nat
  /\ decodeTimeStamp decodeTable s = value ds
  /\ encodeTimeStamp encodeTable (decodeTimeStamp decodeTable s) = Some s.
Proof.
  intros Hinv Hcan s. pose proof (canonical_length ds Hcan) as Hlen.
  destruct Hcan as (Hall & Hhd & Hval).
  pose proof (value_bounds ds Hall) as Hb.
  assert (decodeTimeStamp decodeTable s = value ds) as Edec.
  { unfold decodeTimeStamp. subst s. unfold symbols.
    rewrite (decodeLoop_symbols encodeTable decodeTable Hinv);
      try assumption; lia. }
  split; [| split; [exact Edec |]].
  - subst s. unfold symbols.
    rewrite string_length_of_list, length_map. exact Hlen.
  - rewrite Edec, encodeTimeStamp_digits by (unfold uint64; lia).
    rewrite digits_of_value by assumption. reflexivity.
Qed.

Lemma encode_decode_canonical_witness :
  let s := symbols sampleEncodeTable [1; 0; 63] in
  (String.length s <= 11)%nat
  /\ decodeTimeStamp sampleDecodeTable s = value [1; 0; 63]
  /\ encodeTimeStamp sampleEncodeTable (decodeTimeStamp sampleDecodeTable s)
     = Some s.
Proof.
  apply encode_decode_canonical.
  - exact sample_tables_inverse.
  - unfold canonical, sixbit. split; [repeat constructor; lia |].
    split; [simpl; lia | vm_compute; reflexivity].
Defined.

(** X13. With a decode table that inverts the encode table, both
    decoders ignore leading symbols of the value 0: a string and the
    same string behind such a symbol decode alike. *)
Theorem decode_leading_zero encodeTable decodeTable s :
  tables_inverse encodeTable decodeTable ->
  let zero_symbol := encodeTable_at encodeTable 0 in
  decodeTimeStamp decodeTable (String zero_symbol s)
  = decodeTimeStamp decodeTable s
  /\ decodeTimeStampWithCheck decodeTable (String zero_symbol s)
     = decodeTimeStampWithCheck decodeTable s.
Proof.
  intros Hinv zero_symbol.
  assert (decodeTable_at decodeTable (char_code zero_symbol) = 0) as E
    by (apply Hinv; unfold sixbit; lia).
  unfold decodeTimeStamp, decodeTimeStampWithCheck. simpl.
  unfold decodeStep. rewrite E. split; reflexivity.
Qed.

Lemma decode_leading_zero_witness :
  decodeTimeStamp sampleDecodeTable "-0z" = decodeTimeStamp sampleDecodeTable "0z"
  /\ decodeTimeStampWithCheck sampleDecodeTable "-0z"
     = decodeTimeStampWithCheck sampleDecodeTable "0z".
Proof.
  apply (decode_leading_zero sampleEncodeTable sampleDecodeTable "0z").
  exact sample_tables_inverse.
Defined.

(** X14. With a decode table that inverts the encode table,
    [decodeTimeStamp] returns for a string of symbols, however long, the
    value of its 6-bit groups reduced modulo 2^64; so whatever stands
    before the last 11 symbols does not count. *)
Theorem decodeTimeStamp_wraps encodeTable decodeTable :
  tables_inverse encodeTable decodeTable ->
  (forall ds,
      Forall sixbit ds ->
      decodeTimeStamp decodeTable (symbols encodeTable ds)
      = value ds mod 2 ^ 64)
  /\ (forall pre ds,
        Forall sixbit pre -> Forall sixbit ds -> length ds = 11%nat ->
        decodeTimeStamp decodeTable (symbols encodeTable (pre ++ ds))
        = decodeTimeStamp decodeTable (symbols encodeTable ds)).
Proof.
  intros Hinv.
  assert (forall ds, Forall sixbit ds ->
            decodeTimeStamp decodeTable (symbols encodeTable ds)
            = value ds mod 2 ^ 64) as Hwrap.
  { intros ds Hall. unfold decodeTimeStamp.
    rewrite (decodeLoop_wrap encodeTable decodeTable Hinv)
      by (try assumption; unfold uint64; lia).
    rewrite Z.mul_0_l, Z.add_0_l. reflexivity. }
  split; [exact Hwrap |].
  intros pre ds Hpre Hds Hlen.
  rewrite !Hwrap by (try apply Forall_app; auto).
  rewrite value_app, Hlen.
  change (64 ^ Z.of_nat 11) with (4 * 2 ^ 64).
  rewrite Z.mul_assoc, Z.add_comm, Z.mod_add by lia. reflexivity.
Qed.

Lemma decodeTimeStamp_wraps_witness :
  decodeTimeStamp sampleDecodeTable
    (symbols sampleEncodeTable ([5; 7] ++ [63; 0; 0; 0; 0; 0; 0; 0; 0; 0; 1]))
  = decodeTimeStamp sampleDecodeTable
      (symbols sampleEncodeTable [63; 0; 0; 0; 0; 0; 0; 0; 0; 0; 1]).
Proof.
  apply (proj2 (decodeTimeStamp_wraps sampleEncodeTable sampleDecodeTable
                  sample_tables_inverse)).
  - unfold sixbit. repeat constructor; lia.
  - unfold sixbit. repeat constructor; lia.
  - reflexivity.
Defined.

Lemma digits_length_mono a b :
  0 <= a -> a < b -> b < 64 ^ Z.of_nat 11 ->
  (length (digits 11 a) <= length (digits 11 b))%nat.
Proof.
  intros Ha Hab Hb.
  destruct (digits_minimal 11 a ltac:(lia)) as [_ Hlo].
  destruct (digits_minimal 11 b ltac:(lia)) as [Hhi _].
  destruct (Z.eq_dec a 0) as [-> | Hne].
  - rewrite digits_zero. apply Nat.le_0_l.
  - specialize (Hlo ltac:(lia)).
    assert (64 ^ (Z.of_nat (length (digits 11 a)) - 1)
            < 64 ^ Z.of_nat (length (digits 11 b))) as Hpow by lia.
    apply Z.pow_lt_mono_r_iff in Hpow; lia.
Qed.

Lemma shortlex_forward encodeTable a b :
  table_increasing encodeTable -> uint64 a -> uint64 b -> a < b ->
  shortlex_lt (symbols encodeTable (digits 11 a))
              (symbols encodeTable (digits 11 b)).
Proof.
  intros Hmono Ha Hb Hab. unfold uint64, shortlex_lt, symbols in *.
  rewrite !string_length_of_list, !length_map.
  assert (0 <= a < 64 ^ Z.of_nat 11) as Ha' by (simpl; lia).
  assert (0 <= b < 64 ^ Z.of_nat 11) as Hb' by (simpl; lia).
  pose proof (digits_length_mono a b ltac:(lia) Hab ltac:(lia)) as Hle.
  destruct (Nat.eq_dec (length (digits 11 a)) (length (digits 11 b)))
    as [Heq | Hne]; [right | left; lia].
  split; [exact Heq |].
  apply (compare_symbols encodeTable Hmono);
    auto using digits_sixbit.
  rewrite (digits_value 11 a Ha'), (digits_value 11 b Hb'). exact Hab.
Qed.

Lemma shortlex_asym s1 s2 : shortlex_lt s1 s2 -> shortlex_lt s2 s1 -> False.
Proof.
  unfold shortlex_lt, string_lt.
  intros [H1 | [H1 L1]] [H2 | [H2 L2]]; try lia.
  rewrite String.compare_antisym, L2 in L1. discriminate.
Qed.

(** X15. With an encode table whose symbols grow with the 6-bit values,
    64-bit time stamps are ordered as their encodings are when the
    shorter string comes first and equally long strings compare as
    strings. *)
Theorem encode_shortlex encodeTable a b :
  table_increasing encodeTable -> uint64 a -> uint64 b ->
  exists sa sb,
    encodeTimeStamp encodeTable a = Some sa
    /\ encodeTimeStamp encodeTable b = Some sb
    /\ (a < b <-> shortlex_lt sa sb).
Proof.
  intros Hmono Ha Hb. do 2 eexists.
  split; [apply encodeTimeStamp_digits, Ha |].
  split; [apply encodeTimeStamp_digits, Hb |].
  fold (symbols encodeTable (digits 11 a)).
  fold (symbols encodeTable (digits 11 b)).
  split; [apply shortlex_forward; assumption |].
  intros Hlt. destruct (Z.lt_trichotomy a b) as [H | [-> | H]].
  - exact H.
  - destruct (shortlex_asym _ _ Hlt Hlt).
  - destruct (shortlex_asym _ _ Hlt
                (shortlex_forward encodeTable b a Hmono Hb Ha H)).
Qed.

Lemma encode_shortlex_witness :
  exists sa sb,
    encodeTimeStamp sampleEncodeTable 63 = Some sa
    /\ encodeTimeStamp sampleEncodeTable 64 = Some sb
    /\ (63 < 64 <-> shortlex_lt sa sb).
Proof.
  apply encode_shortlex.
  - exact sample_table_increasing.
  - unfold uint64. lia.
  - unfold uint64. lia.
Defined.

End CodecExtras.

(** ** The retry loop *)

Module LoopExtras.
Import HybridLogicalClock ClockFacts.

(** Attempts that fail spuriously and see no foreign store leave the
    loop where it started. *)
Lemma cas_loop_spurious body env1 : forall env last,
  Forall (fun a => interference a = None /\ spurious a = true) env1 ->
  cas_loop body (env1 ++ env) last = cas_loop body env last.
Proof.
  induction env1 as [| a env1 IH]; intros env last Hall; [reflexivity |].
  apply Forall_cons in Hall as [[Hi Hsp] Hall].
  simpl. unfold compare_exchange_weak, observed. rewrite Hi, Hsp.
  rewrite andb_false_r. apply IH, Hall.
Qed.

(** X16. Whatever the earlier attempts met, both functions return no
    later than at the first attempt that no other thread disturbs, and
    the clock then stores the value returned. *)
Theorem returns_when_undisturbed env1 ms env2 last received :
  (exists ts, getTimeStamp (env1 ++ quiet ms :: env2) last = Some (ts, ts))
  /\ (exists ts,
        getTimeStampReceived received (env1 ++ quiet ms :: env2) last
        = Some (ts, ts)).
Proof.
  split; apply cas_loop_returns.
Qed.

(** X17. Spurious failures of the weak exchange cost retries and
    nothing else: behind any number of attempts that fail spuriously,
    with no store by another thread, both functions return what they
    return without them. *)
Theorem spurious_failures_harmless env1 ms env2 last received :
  Forall (fun a => interference a = None /\ spurious a = true) env1 ->
  getTimeStamp (env1 ++ quiet ms :: env2) last = getTimeStamp [quiet ms] last
  /\ getTimeStampReceived received (env1 ++ quiet ms :: env2) last
     = getTimeStampReceived received [quiet ms] last.
Proof.
  intros Hall. unfold getTimeStamp, getTimeStampReceived.
  rewrite !cas_loop_spurious by exact Hall.
  rewrite !(cas_loop_success _ _ _ _ _ (success_quiet ms env2 last)).
  rewrite !(cas_loop_success _ _ _ _ _ (success_quiet ms [] last)).
  split; reflexivity.
Qed.

Lemma spurious_failures_harmless_witness :
  getTimeStamp ([Attempt 999998 None true; Attempt 999999 None true]
                ++ quiet 1000000 :: []) 1048576000003
  = getTimeStamp [quiet 1000000] 1048576000003
  /\ getTimeStampReceived 7
       ([Attempt 999998 None true; Attempt 999999 None true]
        ++ quiet 1000000 :: []) 1048576000003
     = getTimeStampReceived 7 [quiet 1000000] 1048576000003.
Proof.
  apply spurious_failures_harmless.
  repeat constructor.
Defined.

End LoopExtras.
